(** * A shallow embedding of the in-process cache of [snippets/cache.js]
      together with its queue ([Queue], [ProcessQueue]) and the
      unbounded timer helper [setUnboundedTimeout].

    Modelling conventions.
    - JavaScript values that reach the cache are the inductive [jsval].
      Numbers are integral ([NInt]) or NaN; objects and arrays are
      represented by their JSON text, so [JSON.stringify] returns that text
      and [JSON.parse] rebuilds the value from it.
    - JavaScript strings are Rocq [string]s (one [ascii] per code unit).
    - [crypto.randomBytes] draws from a counter [rng] that is part of the
      state, so every draw is fresh.
    - AES-256-CBC is replaced by a stand-in cipher with the two properties
      the code relies on: decryption with the encryption key gives the
      plaintext back, and decryption with another key fails
      ("bad decrypt").  Ciphertexts are hex strings, as in the code.
    - The SHA-256 digest of [#createCheckSum] is replaced by an injective
      stand-in; the code only compares digests for equality.
    - A JS [Map] is an association list in insertion order; entry objects
      live in a heap so that two maps can share (alias) one object, as
      [new Map(this.#data)] does.
    - The event loop is a FIFO list of pending continuations (one per
      [await]). *)

From Stdlib Require Import ZArith Lia String Ascii DecimalString DecimalZ.
From stdpp Require Import base list gmap.
Import ListNotations.

Open Scope string_scope.

(* ------------------------------------------------------------------ *)
(** ** Errors and results *)

Inductive err :=
  | QueueFull          (* "Queue is full" *)
  | QueueEmpty         (* "Queue is empty" *)
  | InvalidFormat      (* "Invalid string to decode." *)
  | BadDecrypt         (* decipher.final: bad decrypt *)
  | TypeError          (* calling a string method on a non-string, ... *)
  | SyntaxError        (* BigInt of a non-numeric string *)
  | HashKeyNotSet      (* "Cache hash key is not set." *)
  | NonCachableValue   (* CacheException NON_CACHABLE_VALUE *)
  | UnableToObfuscate  (* CacheException UNABLE_TO_OBFUSCATE *)
  | DelayTooLong       (* "Whoa there, time traveler! ..." *)
  | JobFailed (id : nat). (* thrown by the queued job [id] of the drain-loop examples *)

Inductive result (A : Type) :=
  | Ok (a : A)
  | Error (e : err).
Arguments Ok {A} a.
Arguments Error {A} e.

(* ------------------------------------------------------------------ *)
(** ** JavaScript values *)

Inductive jsnumber :=
  | NInt (z : Z)
  | NNaN.

Inductive jsval :=
  | JString (s : string)
  | JNumber (n : jsnumber)
  | JBoolean (b : bool)
  | JBigInt (z : Z)
  | JObject (json : string)
  | JArray (json : string)
  | JNoJSON (is_array : bool) (id : nat)
      (* an object or array [JSON.stringify] throws on: one holding a
         BigInt, or one with a cycle *)
  | JNull
  | JUndefined
  | JFunction (id : nat)
  | JSymbol (id : nat).

(** [Array.isArray(value) ? "array" : typeof value], as computed by both
    [converttostring] and [Cache.write]. *)
Definition type_of (v : jsval) : string :=
  match v with
  | JString _ => "string"
  | JNumber _ => "number"
  | JBoolean _ => "boolean"
  | JBigInt _ => "bigint"
  | JObject _ | JNull => "object"
  | JArray _ => "array"
  | JNoJSON b _ => if b then "array" else "object"
  | JUndefined => "undefined"
  | JFunction _ => "function"
  | JSymbol _ => "symbol"
  end.

(** Decimal printing and parsing of integers ([toString], [Number],
    [BigInt]). *)
Definition z_to_string (z : Z) : string :=
  NilZero.string_of_int (Z.to_int z).

Definition z_of_string (s : string) : option Z :=
  option_map Z.of_int (NilZero.int_of_string s).

Definition number_to_string (n : jsnumber) : string :=
  match n with NInt z => z_to_string z | NNaN => "NaN" end.

(** [Number(string)]: NaN when the text is not a decimal integer. *)
Definition Number (s : string) : jsnumber :=
  match z_of_string s with Some z => NInt z | None => NNaN end.

(** [BigInt(string)] throws a SyntaxError on non-numeric text. *)
Definition BigInt (s : string) : result Z :=
  match z_of_string s with Some z => Ok z | None => Error SyntaxError end.

(** [JSON.parse] of a JSON text produced by [JSON.stringify]. *)
Definition JSON_parse (s : string) : jsval :=
  if String.eqb s "null" then JNull
  else match s with String "[" _ => JArray s | _ => JObject s end.

(* ------------------------------------------------------------------ *)
(** ** String helpers *)

(** [string.split(":")] *)
Fixpoint split_colon_aux (s : string) (cur : string) : list string :=
  match s with
  | EmptyString => [cur]
  | String c r =>
      if Ascii.eqb c ":" then cur :: split_colon_aux r ""
      else split_colon_aux r (cur ++ String c "")
  end.

Definition split_colon (s : string) : list string := split_colon_aux s "".

(** [toLowerCase] on ASCII letters. *)
Definition lower_ascii (c : ascii) : ascii :=
  let n := nat_of_ascii c in
  if ((65 <=? n) && (n <=? 90))%nat then ascii_of_nat (n + 32)%nat else c.

Fixpoint toLowerCase (s : string) : string :=
  match s with
  | EmptyString => EmptyString
  | String c r => String (lower_ascii c) (toLowerCase r)
  end.

(** Hex encoding ([buf.toString("hex")]) and decoding
    ([Buffer.from(s, "hex")], which stops at the first non-hex pair). *)
Definition hex_digit (n : nat) : ascii :=
  ascii_of_nat (if n <? 10 then 48 + n else 87 + n)%nat.

Definition hex_val (c : ascii) : option nat :=
  let n := nat_of_ascii c in
  (if (48 <=? n) && (n <=? 57) then Some (n - 48)
   else if (97 <=? n) && (n <=? 102) then Some (n - 87)
   else None)%nat.

Fixpoint to_hex (s : string) : string :=
  match s with
  | EmptyString => EmptyString
  | String c r =>
      let n := nat_of_ascii c in
      String (hex_digit (n / 16)%nat) (String (hex_digit (n mod 16)%nat) (to_hex r))
  end.

Fixpoint from_hex (s : string) : string :=
  match s with
  | String a (String b r) =>
      match hex_val a, hex_val b with
      | Some x, Some y => String (ascii_of_nat (16 * x + y)%nat) (from_hex r)
      | _, _ => EmptyString
      end
  | _ => EmptyString
  end.

Fixpoint strip_prefix (p s : string) : option string :=
  match p, s with
  | EmptyString, _ => Some s
  | String a p', String b s' => if Ascii.eqb a b then strip_prefix p' s' else None
  | _, _ => None
  end.

(* ------------------------------------------------------------------ *)
(** ** Randomness and the cipher stand-in *)

(** [crypt.randomBytes(n)]: the [n]-th draw of the generator. *)
Definition randomBytes (n : nat) : string :=
  "R" ++ z_to_string (Z.of_nat n).

(** AES-256-CBC stand-in: the ciphertext (hex) carries the key it was made
    with; decryption under another key fails like [decipher.final] does. *)
Definition cipher_encrypt (key iv plain : string) : string :=
  to_hex (key ++ "|" ++ plain).

Definition cipher_decrypt (key iv : string) (ct : string) : result string :=
  match strip_prefix (key ++ "|") ct with
  | Some p => Ok p
  | None => Error BadDecrypt
  end.

(* ------------------------------------------------------------------ *)
(** ** Obfuscator: converttostring, toType, encode, decode *)

(** [converttostring]: the value to encrypt and its type tag.  For the
    default branch the value itself is returned (it is a string only for
    type ["string"]); [JSON.stringify] throws a TypeError on a BigInt
    inside or on a cycle. *)
Definition converttostring (v : jsval) : result (jsval * string) :=
  let ty := type_of v in
  match v with
  | JNumber n => Ok (JString (number_to_string n), ty)
  | JBoolean b => Ok (JString (if b then "true" else "false"), ty)
  | JBigInt z => Ok (JString (z_to_string z), ty)
  | JObject j | JArray j => Ok (JString j, ty)
  | JNull => Ok (JString "null", ty)
  | JNoJSON _ _ => Error TypeError
  | _ => Ok (v, ty)
  end.

(** [toType]: note the missing [break] after the ["bigint"] case, which
    falls through into the ["boolean"] case. *)
Definition toType (s : string) (ty : string) : result jsval :=
  if String.eqb ty "number" then Ok (JNumber (Number s))
  else if String.eqb ty "bigint" then
    match BigInt s with
    | Error e => Error e
    | Ok _ => Ok (JBoolean (String.eqb (toLowerCase s) "true"))
    end
  else if String.eqb ty "boolean" then Ok (JBoolean (String.eqb (toLowerCase s) "true"))
  else if String.eqb ty "object" || String.eqb ty "array" then Ok (JSON_parse s)
  else Ok (JString s).

(** [encode] under key [charm], drawing the IV from [rng].  The body runs
    as the callback of [emitter], whose [try/catch] swallows a throw: the
    result is then [undefined].  [cipher.update] throws on a non-string. *)
Definition encode (charm : string) (rng : nat) (v : jsval) : jsval * nat :=
  match converttostring v with
  | Error _ => (JUndefined, rng)
  | Ok (sv, ty) =>
      let iv := randomBytes rng in
      match sv with
      | JString s =>
          (JString (to_hex iv ++ ":" ++ cipher_encrypt charm iv s ++ ":" ++ ty), S rng)
      | _ => (JUndefined, S rng)
      end
  end.

(** [decode]: [string.split] throws a TypeError on a non-string. *)
Definition decode (charm : string) (v : jsval) : result jsval :=
  match v with
  | JString s =>
      match split_colon s with
      | [ivh; enc; ty] =>
          match cipher_decrypt charm (from_hex ivh) (from_hex enc) with
          | Ok dec => toType dec ty
          | Error e => Error e
          end
      | _ => Error InvalidFormat
      end
  | _ => Error TypeError
  end.

(* ------------------------------------------------------------------ *)
(** ** [Queue]: the bounded circular FIFO of [queue.js] *)

Module Queue.

(** [items] is the JS array [new Array(capacity)]; [None] is a hole or
    [undefined].  [rear] starts at [capacity - 1]. *)
Record t (A : Type) := mk {
  capacity : nat;
  items : list (option A);
  front : nat;
  rear : nat;
  size : nat
}.
Arguments mk {A}.
Arguments capacity {A}.
Arguments items {A}.
Arguments front {A}.
Arguments rear {A}.
Arguments size {A}.

Section Ops.
Context {A : Type}.

(** [constructor(capacity)] *)
Definition create (capacity : nat) : t A :=
  mk capacity (repeat None capacity) 0 (capacity - 1) 0.

Definition isEmpty (q : t A) : bool := Nat.eqb (size q) 0.
Definition isFull (q : t A) : bool := Nat.eqb (size q) (capacity q).

(** [enqueue(item)] *)
Definition enqueue (x : A) (q : t A) : result (t A) :=
  if isFull q then Error QueueFull
  else
    let r := (rear q + 1) mod capacity q in
    Ok (mk (capacity q) (<[r := Some x]> (items q)) (front q) r (size q + 1)).

(** [this.items[this.front]]: [undefined] outside the array. *)
Definition at_index (q : t A) (i : nat) : option A :=
  match items q !! i with Some o => o | None => None end.

(** [dequeue()]: returns the JS value found at [front] ([None] for
    [undefined]). *)
Definition dequeue (q : t A) : result (option A * t A) :=
  if isEmpty q then Error QueueEmpty
  else
    let item := at_index q (front q) in
    Ok (item, mk (capacity q) (<[front q := None]> (items q))
                 ((front q + 1) mod capacity q) (rear q) (size q - 1)).

(** [peek()] *)
Definition peek (q : t A) : result (option A) :=
  if isEmpty q then Error QueueEmpty else Ok (at_index q (front q)).

(** The pending items, oldest first: the [size] slots from [front]
    on, read circularly. *)
Definition contents (q : t A) : list (option A) :=
  map (fun i => at_index q ((front q + i) mod capacity q)) (seq 0 (size q)).

(** The shape every queue built by [create], [enqueue] and [dequeue]
    keeps. *)
Definition wf (q : t A) : Prop :=
  length (items q) = capacity q /\
  size q <= capacity q /\
  (capacity q = 0 -> size q = 0) /\
  (0 < capacity q ->
     front q < capacity q /\ rear q < capacity q /\
     (rear q + 1) mod capacity q = (front q + size q) mod capacity q) /\
  Forall (fun o => is_Some o) (contents q).

(** [enqueue] each item of a list in turn, stopping at the first error. *)
Fixpoint enqueue_all (xs : list A) (q : t A) : result (t A) :=
  match xs with
  | [] => Ok q
  | x :: r => match enqueue x q with Ok q' => enqueue_all r q' | Error e => Error e end
  end.

End Ops.
End Queue.

(* ------------------------------------------------------------------ *)
(** ** [ProcessQueue]: the write serializer *)

Module ProcessQueue.

(** What a queued [{function: item, callback}] pair does, on a state [St]
    the functions act on.  Each call ends by returning, by throwing
    synchronously, or with a promise that rejects; [Some e] is the error
    that reaches the [catch] of [execute]. *)
Record runner (St J : Type) := mkRunner {
  call_item : J -> St -> St * option err;
      (* [item()], up to its return: a synchronous throw *)
  item_settled : J -> St -> St * option err;
      (* [await item()] resuming: a rejection of its promise; otherwise
         [callback(result)] when there is one, up to its return *)
  has_callback : J -> bool;
      (* [if (callback)] *)
  callback_settled : J -> St -> St * option err;
      (* [await callback(result)] resuming: a rejection of its promise *)
  log_error : err -> St -> St
      (* [console.error] in the [catch] of [execute] *)
}.
Arguments mkRunner {St J}.
Arguments call_item {St J}.
Arguments item_settled {St J}.
Arguments has_callback {St J}.
Arguments callback_settled {St J}.
Arguments log_error {St J}.

(** Where a suspended drain loop resumes: after [await item()] or after
    [await callback(result)] of the job it dequeued. *)
Inductive cont (J : Type) :=
  | AfterItem (j : J)
  | AfterCallback (j : J).
Arguments AfterItem {J}.
Arguments AfterCallback {J}.

Section Drain.
Context {St J : Type}.
Variable r : runner St J.

Record t := mk {
  queue : Queue.t J;
  isExecuting : bool
}.

(** [constructor(capacity)] *)
Definition create (capacity : nat) : t := mk (Queue.create capacity) false.

(** The end of the loop: the [catch] logs the error, if one was thrown,
    and [finally] clears [isExecuting]. *)
Definition stop (q : Queue.t J) (s : St) (e : option err) : t * St * option (cont J) :=
  (mk q false, match e with Some er => log_error r er s | None => s end, None).

(** The [while] loop from its test, up to its next [await] ([Some] of the
    continuation) or its end ([None]).  [this.dequeue()] cannot fail after
    [!this.isEmpty()]; destructuring an [undefined] item throws a
    TypeError. *)
Definition loop_top (q : Queue.t J) (s : St) : t * St * option (cont J) :=
  if Queue.isEmpty q then stop q s None
  else
    match Queue.dequeue q with
    | Error e => stop q s (Some e)
    | Ok (None, q') => stop q' s (Some TypeError)
    | Ok (Some j, q') =>
        let '(s1, e) := call_item r j s in
        match e with
        | Some _ => stop q' s1 e
        | None => (mk q' true, s1, Some (AfterItem j))
        end
    end.

(** Running the pending continuation of a suspended loop. *)
Definition resume (k : cont J) (p : t) (s : St) : t * St * option (cont J) :=
  match k with
  | AfterItem j =>
      let '(s1, e) := item_settled r j s in
      match e with
      | Some _ => stop (queue p) s1 e
      | None =>
          if has_callback r j then (p, s1, Some (AfterCallback j))
          else loop_top (queue p) s1
      end
  | AfterCallback j =>
      let '(s1, e) := callback_settled r j s in
      match e with
      | Some _ => stop (queue p) s1 e
      | None => loop_top (queue p) s1
      end
  end.

(** [execute()] as called synchronously: it returns at once when the
    queue is empty or a loop is running; otherwise it sets [isExecuting]
    and runs the loop up to its first [await]. *)
Definition execute (p : t) (s : St) : t * St * option (cont J) :=
  if Queue.isEmpty (queue p) || isExecuting p then (p, s, None)
  else loop_top (queue p) s.

(** [enqueue(item, callback)]: [super.enqueue] may throw [QueueFull]. *)
Definition enqueue (j : J) (p : t) (s : St) : result (t * St * option (cont J)) :=
  match Queue.enqueue j (queue p) with
  | Error e => Error e
  | Ok q' =>
      let p' := mk q' (isExecuting p) in
      if isExecuting p then Ok (p', s, None) else Ok (execute p' s)
  end.

(** Run the pending continuation of the drain loop, and the ones it
    schedules, until the loop stops (at most [fuel] of them). *)
Fixpoint drain (fuel : nat) (k : cont J) (p : t) (s : St) : t * St :=
  match fuel with
  | O => (p, s)
  | S f =>
      let '(p', s', next) := resume k p s in
      match next with
      | Some k' => drain f k' p' s'
      | None => (p', s')
      end
  end.

End Drain.
Arguments t : clear implicits.

End ProcessQueue.

(** Jobs whose only observable effect is that they ran: used to state the
    drain loop's behaviour for arbitrary work functions.  [work] is how
    the call [item()] ends, [callback] the optional completion callback
    and how its call ends. *)
Inductive call_end :=
  | Returns        (* returns, or returns a promise that resolves *)
  | Throws         (* throws synchronously *)
  | Rejects.       (* returns a promise that rejects *)

Record job := mkJob {
  jid : nat;
  work : call_end;
  callback : option call_end
}.

(** What the examples observe: the jobs whose function was called, and
    the errors the drain loop logged. *)
Inductive jevent :=
  | Ran (id : nat)
  | Caught (e : err).

Definition sync_error (j : job) (o : call_end) : option err :=
  match o with Throws => Some (JobFailed (jid j)) | _ => None end.

Definition async_error (j : job) (o : call_end) : option err :=
  match o with Rejects => Some (JobFailed (jid j)) | _ => None end.

Definition job_runner : ProcessQueue.runner (list jevent) job :=
  ProcessQueue.mkRunner
    (fun j s => ((s ++ [Ran (jid j)])%list, sync_error j (work j)))
    (fun j s =>
       match async_error j (work j) with
       | Some e => (s, Some e)
       | None =>
           match callback j with
           | Some o => (s, sync_error j o)
           | None => (s, None)
           end
       end)
    (fun j => match callback j with Some _ => true | None => false end)
    (fun j s =>
       match callback j with
       | Some o => (s, async_error j o)
       | None => (s, None)
       end)
    (fun e s => (s ++ [Caught e])%list).

(** Whether the job's function or its callback fails. *)
Definition job_fails (j : job) : bool :=
  match work j with
  | Returns => match callback j with Some Returns | None => false | _ => true end
  | _ => true
  end.

(** The drain loop continued from its [while] test on the queue [q], with
    at most [fuel] continuations after that. *)
Definition drain_from_top {St J : Type} (r : ProcessQueue.runner St J) (fuel : nat)
  (q : Queue.t J) (s : St) : ProcessQueue.t J * St :=
  match ProcessQueue.loop_top r q s with
  | (p', s', Some k) => ProcessQueue.drain r fuel k p' s'
  | (p', s', None) => (p', s')
  end.

(* ------------------------------------------------------------------ *)
(** ** [Cache]: entries, maps, hashing *)

(** [expiration]: ["never"] or a [Duration] (in milliseconds). *)
Inductive ttl :=
  | Never
  | After (ms : Z).

(** The entry object [{ value, expiresOn, isObfusacated, type, checksum }]. *)
Record entry := mkEntry {
  value : jsval;
  expiresOn : ttl;
  isObfusacated : bool;
  type : string;
  checksum : string
}.

Definition set_value (e : entry) (v : jsval) : entry :=
  mkEntry v (expiresOn e) (isObfusacated e) (type e) (checksum e).

Inductive logline :=
  | Warn (msg : string)      (* console.warn *)
  | Logged (e : err).        (* console.error of a caught error *)

(** A JS [Map<number, object>]: hashed key to object reference (a heap
    location), in insertion order. *)
Definition jsmap := list (Z * nat).

Fixpoint map_get (m : jsmap) (k : Z) : option nat :=
  match m with
  | [] => None
  | (k', l) :: r => if Z.eqb k k' then Some l else map_get r k
  end.

Definition map_has (m : jsmap) (k : Z) : bool :=
  match map_get m k with Some _ => true | None => false end.

(** [map.set(k, l)]: replaces in place when present, appends otherwise. *)
Definition map_set (m : jsmap) (k : Z) (l : nat) : jsmap :=
  if map_has m k
  then map (fun p => if Z.eqb (fst p) k then (k, l) else p) m
  else (m ++ [(k, l)])%list.

(** [map.delete(k)]: whether something was removed, and the new map. *)
Definition map_delete (m : jsmap) (k : Z) : bool * jsmap :=
  (map_has m k, List.filter (fun p => negb (Z.eqb (fst p) k)) m).

(** The state of one [Cache] object and of the [Obfuscator] it owns. *)
Record cache := mkCache {
  heap : gmap nat entry;    (* entry objects *)
  next_obj : nat;
  data : jsmap;             (* #data *)
  temp : jsmap;             (* #temp *)
  isPaused : bool;          (* #isPaused *)
  charm : string;           (* the obfuscator's #fideliusCharm *)
  rng : nat;                (* next draw of crypt.randomBytes *)
  seed : Z;                 (* parseInt(process.env.CACHE_HASH_KEY_INITALIZER);
                               0 stands for every falsy result, NaN included *)
  timers : list Z;          (* hashed keys of the pending expiry timers *)
  logs : list logline
}.

Definition with_heap c h n := mkCache h n (data c) (temp c) (isPaused c) (charm c) (rng c) (seed c) (timers c) (logs c).
Definition with_data c d := mkCache (heap c) (next_obj c) d (temp c) (isPaused c) (charm c) (rng c) (seed c) (timers c) (logs c).
Definition with_temp c t := mkCache (heap c) (next_obj c) (data c) t (isPaused c) (charm c) (rng c) (seed c) (timers c) (logs c).
Definition with_paused c b := mkCache (heap c) (next_obj c) (data c) (temp c) b (charm c) (rng c) (seed c) (timers c) (logs c).
Definition with_key c k r := mkCache (heap c) (next_obj c) (data c) (temp c) (isPaused c) k r (seed c) (timers c) (logs c).
Definition with_timers c t := mkCache (heap c) (next_obj c) (data c) (temp c) (isPaused c) (charm c) (rng c) (seed c) t (logs c).
Definition add_log c l := mkCache (heap c) (next_obj c) (data c) (temp c) (isPaused c) (charm c) (rng c) (seed c) (timers c) (logs c ++ [l])%list.

(** JS [ToInt32]. *)
Definition toInt32 (z : Z) : Z :=
  (let m := z mod 2 ^ 32 in
   if m >=? 2 ^ 31 then m - 2 ^ 32 else m)%Z.

(** [/\s/]: the white space characters of Latin-1. *)
Definition is_space (c : ascii) : bool :=
  let n := nat_of_ascii c in
  (((9 <=? n) && (n <=? 13)) || Nat.eqb n 32 || Nat.eqb n 160)%nat.

(** [key.replace(/\s/g, "")] *)
Fixpoint strip_spaces (s : string) : string :=
  match s with
  | EmptyString => EmptyString
  | String c r => if is_space c then strip_spaces r else String c (strip_spaces r)
  end.

(** The loop [hash = (hash << 5) + hash + key.charCodeAt(i)].  The sum is a
    double; it is exact (an integer below 2^53) for keys of fewer than
    about 4 million characters, which is what the model assumes. *)
Fixpoint hash_loop (hash : Z) (s : string) : Z :=
  match s with
  | EmptyString => hash
  | String c r =>
      hash_loop (toInt32 (Z.shiftl (toInt32 hash) 5) + hash + Z.of_nat (nat_of_ascii c))%Z r
  end.

(** [#createHashKey(key)] *)
Definition createHashKey (seed : Z) (key : string) : result Z :=
  let key' := strip_spaces key in
  if Z.eqb seed 0 then Error HashKeyNotSet else Ok (hash_loop seed key').

(** [#createCheckSum(key)]: SHA-256 stand-in (injective). *)
Definition createCheckSum (key : string) : string := "sha256:" ++ key.

(** [#validateKeyCheckSum(hKey, checksum)] *)
Definition validateKeyCheckSum (c : cache) (hk : Z) (cs : string) : bool :=
  match map_get (data c) hk with
  | None => true
  | Some l =>
      match heap c !! l with
      | Some e => String.eqb (checksum e) cs
      | None => false
      end
  end.

(** The entry found under a hashed key. *)
Definition entry_at (c : cache) (hk : Z) : option entry :=
  match map_get (data c) hk with
  | Some l => heap c !! l
  | None => None
  end.

(** [has(key)] *)
Definition has (c : cache) (key : string) : result bool :=
  match createHashKey (seed c) key with
  | Error e => Error e
  | Ok hk => Ok (map_has (data c) hk)
  end.

(** [delete(key)] *)
Definition delete (c : cache) (key : string) : result (bool * cache) :=
  match createHashKey (seed c) key with
  | Error e => Error e
  | Ok hk => let '(b, m) := map_delete (data c) hk in Ok (b, with_data c m)
  end.

(** [destroy()]: pause, clear, unpause (all synchronous). *)
Definition destroy (c : cache) : cache :=
  with_paused (with_data (with_paused c true) []) false.

(** The body of [read(key)] after the pause gate. *)
Definition read_body (c : cache) (key : string) : result jsval :=
  match createHashKey (seed c) key with
  | Error e => Error e
  | Ok hk =>
      match entry_at c hk with
      | None => Ok JNull
      | Some e => if isObfusacated e then decode (charm c) (value e) else Ok (value e)
      end
  end.

(** An expiry timer of [#runCacheCleanup] firing: [this.#data.delete(key)]. *)
Definition expire (c : cache) (hk : Z) : cache :=
  with_data c (snd (map_delete (data c) hk)).

(** The closure queued by [write]: the variables it captures. *)
Record wjob := mkWJob {
  j_key : string;
  j_hKey : Z;
  j_value : jsval;          (* _value: the ciphertext when obfuscated *)
  j_expiration : ttl;
  j_obfuscate : bool;
  j_type : string           (* typeOfValue *)
}.

Definition collision_warning : string :=
  "[WARNING] Key collision detected. The existing cache will be deleted and the new cache will not be stored.".

(** [maxTotalDelay] of [setUnboundedTimeout]: a longer delay throws
    before any [setTimeout]. *)
Definition maxTotalDelay : Z := 1000000000000.

(** Whether [#runCacheCleanup] throws for an expiration: a duration above
    [maxTotalDelay]. *)
Definition ttl_too_long (t : ttl) : bool :=
  match t with
  | Never => false
  | After ms => (ms >? maxTotalDelay)%Z
  end.

(** The queued job of [write] (lines 583-600), with [#runCacheCleanup]
    (lines 470-481): the cache after it, and the error it throws, if any.
    The entry is stored before [#runCacheCleanup] runs, and
    [setUnboundedTimeout] throws for a delay above [maxTotalDelay], before
    it sets a timer. *)
Definition write_job_run (j : wjob) (c : cache) : cache * option err :=
  let keyCheckSum := createCheckSum (j_key j) in
  if validateKeyCheckSum c (j_hKey j) keyCheckSum then
    let l := next_obj c in
    let e := mkEntry (j_value j) (j_expiration j) (j_obfuscate j) (j_type j) keyCheckSum in
    let c1 := with_data (with_heap c (<[l := e]> (heap c)) (S l)) (map_set (data c) (j_hKey j) l) in
    match j_expiration j with
    | Never => (c1, None)
    | After ms =>
        if (ms >? maxTotalDelay)%Z then (c1, Some DelayTooLong)
        else (with_timers c1 (timers c1 ++ [j_hKey j])%list, None)
    end
  else
    let c1 := add_log c (Warn collision_warning) in
    match delete c1 (j_key j) with
    | Ok (_, c2) => (c2, None)
    | Error e => (c1, Some e)
    end.

(** The same job, with whether it threw. *)
Definition write_job (j : wjob) (c : cache) : cache * bool :=
  let '(c', e) := write_job_run j c in
  (c', match e with Some _ => true | None => false end).

(** The write queue's jobs: [item] is the synchronous closure above (its
    [await] resumes on [undefined]), and [write] passes no callback. *)
Definition write_runner : ProcessQueue.runner cache wjob :=
  ProcessQueue.mkRunner write_job_run (fun _ c => (c, None)) (fun _ => false)
    (fun _ c => (c, None)) (fun e c => add_log c (Logged e)).

(** [this.#temp.forEach(o => o.value = this.obfuscate.decode(o.value))]:
    the objects are shared with [#data]; a throw stops the loop. *)
Fixpoint decode_all (charm : string) (h : gmap nat entry) (m : jsmap)
  : gmap nat entry * option err :=
  match m with
  | [] => (h, None)
  | (_, l) :: r =>
      match h !! l with
      | None => (h, Some TypeError)
      | Some e =>
          match decode charm (value e) with
          | Ok v => decode_all charm (<[l := set_value e v]> h) r
          | Error er => (h, Some er)
          end
      end
  end.

(** [this.#temp.forEach(o => o.value = this.obfuscate.encode(o.value))] *)
Fixpoint encode_all (charm : string) (rng : nat) (h : gmap nat entry) (m : jsmap)
  : gmap nat entry * nat :=
  match m with
  | [] => (h, rng)
  | (_, l) :: r =>
      match h !! l with
      | None => (h, rng)
      | Some e =>
          let '(v, rng') := encode charm rng (value e) in
          encode_all charm rng' (<[l := set_value e v]> h) r
      end
  end.

(** [#handleBeforeKeyRotated], run as a before-handler of [emitter]: a
    throw is caught and logged by [emitter].  [new Map(this.#data)] copies
    the references, not the objects. *)
Definition handleBeforeKeyRotated (c : cache) : cache :=
  let c1 := with_temp c (data c) in
  let '(h, oerr) := decode_all (charm c1) (heap c1) (temp c1) in
  let c2 := with_heap c1 h (next_obj c1) in
  match oerr with
  | None => c2
  | Some er => add_log c2 (Logged er)
  end.

(** [#handleKeyRotated], the [key_rotated] listener. *)
Definition handleKeyRotated (c : cache) : cache :=
  let c1 := destroy (with_paused c true) in
  let '(h, r) := encode_all (charm c1) (rng c1) (heap c1) (temp c1) in
  let c2 := with_key (with_heap c1 h (next_obj c1)) (charm c1) r in
  let c3 := with_data c2 (temp c2) in
  with_temp (with_paused c3 false) [].

(* ------------------------------------------------------------------ *)
(** ** The event loop around one cache *)

(** Pending continuations: the rest of [write] after its pause-gate
    [await], the drain loop after [await item()], the rest of [read] after
    its pause-gate [await], and the rest of [emitter("key_rotated")] after
    [await callback()].  (The continuation of the [obfuscated] event of
    [encode] has no listener and is left out.) *)
Inductive task :=
  | TWrite (pid : nat) (key : string) (v : jsval) (exp : ttl) (obf : bool) (hKey : Z) (ty : string)
  | TDrain (k : ProcessQueue.cont wjob)
  | TRead (pid : nat) (key : string)
  | TEmitKeyRotated.

Record world := mkWorld {
  cs : cache;
  wq : ProcessQueue.t wjob;       (* #writeQueue *)
  tasks : list task;
  settled : list (nat * result jsval)  (* settled promises of read/write calls *)
}.

(** [new Cache()] with a given hash seed: [new Obfuscator()] draws the
    first key; [#writeQueue = new ProcessQueue(5000)]. *)
Definition new_cache (seed : Z) : world :=
  mkWorld (mkCache ∅ 0 [] [] false (randomBytes 0) 1 seed [] []) (ProcessQueue.create 5000) [] [].

Definition push (w : world) (t : task) : world :=
  mkWorld (cs w) (wq w) (tasks w ++ [t])%list (settled w).

Definition settle (w : world) (pid : nat) (r : result jsval) : world :=
  mkWorld (cs w) (wq w) (tasks w) (settled w ++ [(pid, r)])%list.

Definition is_non_cachable (ty : string) : bool :=
  String.eqb ty "function" || String.eqb ty "undefined" || String.eqb ty "symbol".

(** Calling [write(key, value, expiration, obfuscate)]: the synchronous
    part up to the pause-gate [await].  A throw there rejects the returned
    promise. *)
Definition call_write (w : world) (pid : nat) (key : string) (v : jsval) (exp : ttl) (obf : bool) : world :=
  let typeOfValue := type_of v in
  match createHashKey (seed (cs w)) key with
  | Error e => settle w pid (Error e)
  | Ok hKey =>
      if is_non_cachable typeOfValue then settle w pid (Error NonCachableValue)
      else push w (TWrite pid key v exp obf hKey typeOfValue)
  end.

(** Calling [read(key)]. *)
Definition call_read (w : world) (pid : nat) (key : string) : world :=
  push w (TRead pid key).

(** Calling [rotateKey()]: [emitter] runs the before-handlers, then calls
    the callback (a new key) and suspends on [await callback()]. *)
Definition call_rotateKey (w : world) : world :=
  let c1 := handleBeforeKeyRotated (cs w) in
  let c2 := with_key c1 (randomBytes (rng c1)) (S (rng c1)) in
  push (mkWorld c2 (wq w) (tasks w) (settled w)) TEmitKeyRotated.

(** [this.#writeQueue.enqueue(job)] from inside [write]. *)
Definition enqueue_write (w : world) (pid : nat) (j : wjob) : world :=
  match ProcessQueue.enqueue write_runner j (wq w) (cs w) with
  | Error e => settle w pid (Error e)
  | Ok (p, c, next) =>
      let w1 := mkWorld c p (tasks w) (settled w) in
      settle (match next with Some k => push w1 (TDrain k) | None => w1 end) pid (Ok JUndefined)
  end.

(** The rest of [write] after the pause gate, up to the [enqueue]: the
    value is encoded first when [obfuscate] is set. *)
Definition prepare_write (c : cache) (key : string) (hKey : Z) (v : jsval) (exp : ttl) (obf : bool) (ty : string)
  : wjob * cache :=
  let '(val, r) := if obf then encode (charm c) (rng c) v else (v, rng c) in
  (mkWJob key hKey val exp obf ty, with_key c (charm c) r).

(** Running one pending continuation.  While [isPaused] holds, the gate
    polls again later. *)
Definition run_task (w : world) (t : task) : world :=
  match t with
  | TWrite pid key v exp obf hKey ty =>
      if isPaused (cs w) then push w t
      else
        let '(j, c1) := prepare_write (cs w) key hKey v exp obf ty in
        enqueue_write (mkWorld c1 (wq w) (tasks w) (settled w)) pid j
  | TDrain k =>
      let '(p, c, next) := ProcessQueue.resume write_runner k (wq w) (cs w) in
      let w1 := mkWorld c p (tasks w) (settled w) in
      match next with Some k' => push w1 (TDrain k') | None => w1 end
  | TRead pid key =>
      if isPaused (cs w) then push w t else settle w pid (read_body (cs w) key)
  | TEmitKeyRotated =>
      mkWorld (handleKeyRotated (cs w)) (wq w) (tasks w) (settled w)
  end.

(** Run pending continuations in order (at most [fuel] of them). *)
Fixpoint run (fuel : nat) (w : world) : world :=
  match fuel with
  | O => w
  | S f =>
      match tasks w with
      | [] => w
      | t :: rest => run f (run_task (mkWorld (cs w) (wq w) rest (settled w)) t)
      end
  end.

(** The settlement of the promise of call [pid]. *)
Fixpoint outcome (l : list (nat * result jsval)) (pid : nat) : option (result jsval) :=
  match l with
  | [] => None
  | (p, r) :: rest => if Nat.eqb p pid then Some r else outcome rest pid
  end.

(** [has(key)] on the world. *)
Definition world_has (w : world) (key : string) : result bool := has (cs w) key.

(* ------------------------------------------------------------------ *)
(** ** The rotation timer of [Obfuscator] and [setUnboundedTimeout] *)

Module Rotation.

(** What a pending [setTimeout] does when it fires: call [rotateKey()], or
    (for a delay above [maxDelay]) start the next link of the chain. *)
Inductive action :=
  | ARotate
  | AChain (rest : Z).

(** JS values that can be passed to [clearTimeout]: a Node [Timeout]
    object, or a function such as the one [setUnboundedTimeout] returns
    (it closes over the id of its first [setTimeout]). *)
Inductive handle :=
  | HTimeout (id : nat)
  | HClearFn (id : nat).

Record state := mk {
  now : Z;                                (* elapsed milliseconds *)
  pending : list (nat * Z * action);      (* id, due time, action *)
  next_id : nat;
  rotations : list Z;                     (* times at which rotateKey ran *)
  existing : option handle;               (* #existingRotatorTimerObject *)
  duration : Z                            (* #defaultKeyRotationDuration, ms *)
}.

Definition maxDelay : Z := 2147483647.
Definition maxTotalDelay : Z := 1000000000000.
Definition day : Z := 86400000.

(** [setTimeout(f, d)] *)
Definition setTimeout (s : state) (d : Z) (a : action) : state * handle :=
  let id := next_id s in
  (mk (now s) (pending s ++ [(id, (now s + d)%Z, a)])%list (S id) (rotations s) (existing s) (duration s),
   HTimeout id).

(** [setUnboundedTimeout(() => this.rotateKey(), delay)]: returns the
    clearing function. *)
Definition setUnboundedTimeout (s : state) (delay : Z) : result (state * handle) :=
  if (delay >? maxTotalDelay)%Z then Error DelayTooLong
  else if (delay >? maxDelay)%Z then
    let '(s', h) := setTimeout s maxDelay (AChain (delay - maxDelay)%Z) in
    match h with HTimeout id | HClearFn id => Ok (s', HClearFn id) end
  else
    let '(s', h) := setTimeout s delay ARotate in
    match h with HTimeout id | HClearFn id => Ok (s', HClearFn id) end.

(** Node's [clearTimeout(x)]: cancels a [Timeout]; any other argument
    (a function among them) is ignored. *)
Definition clearTimeout (s : state) (h : handle) : state :=
  match h with
  | HTimeout id =>
      mk (now s) (List.filter (fun p => negb (Nat.eqb (fst (fst p)) id)) (pending s))
         (next_id s) (rotations s) (existing s) (duration s)
  | HClearFn _ => s
  end.

Definition with_existing (s : state) (h : handle) : state :=
  mk (now s) (pending s) (next_id s) (rotations s) (Some h) (duration s).

(** [#rotator()]: a throw of [setUnboundedTimeout] leaves the state as it
    was (the caller's [emitter] catches and logs it). *)
Definition rotator (s : state) : state :=
  match setUnboundedTimeout s (duration s) with
  | Ok (s', h) => with_existing s' h
  | Error _ => s
  end.

(** [new Obfuscator()] at time 0: 90 days, then [#rotator()]. *)
Definition create : state :=
  rotator (mk 0 [] 0 [] None (90 * day)%Z).

(** [set defaultKeyRotationDuration(d)]: the [rotation_duration_changed]
    callback clears the existing timer object and calls [#rotator()]. *)
Definition set_defaultKeyRotationDuration (s : state) (d : Z) : state :=
  let s1 := mk (now s) (pending s) (next_id s) (rotations s) (existing s) d in
  let s2 := match existing s1 with Some h => clearTimeout s1 h | None => s1 end in
  rotator s2.

(** The earliest pending timer (the first one among equal due times). *)
Fixpoint earliest (l : list (nat * Z * action)) : option (nat * Z * action) :=
  match l with
  | [] => None
  | p :: r =>
      match earliest r with
      | Some q => if (snd (fst q) <? snd (fst p))%Z then Some q else Some p
      | None => Some p
      end
  end.

(** Fire one timer: it leaves the pending list and runs its action. *)
Definition fire (s : state) (p : nat * Z * action) : state :=
  let '(id, due, a) := p in
  let rest := List.filter (fun q => negb (Nat.eqb (fst (fst q)) id)) (pending s) in
  let s1 := mk due rest (next_id s) (rotations s) (existing s) (duration s) in
  match a with
  | ARotate => mk due rest (next_id s) (rotations s ++ [due])%list (existing s) (duration s)
  | AChain d =>
      (* clearNextTimeout = setUnboundedTimeout(callback, delay - maxDelay) *)
      match setUnboundedTimeout s1 d with
      | Ok (s2, _) => s2
      | Error _ => s1
      end
  end.

(** Let time pass until [t], firing the timers due by then in order. *)
Fixpoint advance (fuel : nat) (t : Z) (s : state) : state :=
  match fuel with
  | O => s
  | S f =>
      match earliest (pending s) with
      | Some p => if (snd (fst p) <=? t)%Z then advance f t (fire s p)
                  else mk t (pending s) (next_id s) (rotations s) (existing s) (duration s)
      | None => mk t (pending s) (next_id s) (rotations s) (existing s) (duration s)
      end
  end.

End Rotation.

(* ------------------------------------------------------------------ *)
(** ** Domains of the properties proved below *)

(** The values for which [converttostring] followed by [toType] gives
    the value back: strings, numbers, booleans, [null], and objects and
    arrays given by JSON texts (starting with a brace or a bracket). *)
Definition roundtrips (v : jsval) : bool :=
  match v with
  | JString _ | JNumber _ | JBoolean _ | JNull => true
  | JObject (String c _) => Ascii.eqb c "{"
  | JArray (String c _) => Ascii.eqb c "["
  | _ => false
  end.

(** Whether a string contains the separator [":"] of [decode]. *)
Fixpoint has_colon (s : string) : bool :=
  match s with
  | EmptyString => false
  | String c r => Ascii.eqb c ":" || has_colon r
  end.

(* ------------------------------------------------------------------ *)
(** ** Concrete runs *)

(* ------------------------------------------------------------------ *)
(** ** Plain objects [{}]: inherited property names *)

(** The names a plain object inherits from [Object.prototype].  Reading
    one of them gives a function (for [__proto__], [Object.prototype]
    itself): a truthy value that is neither [null] nor [undefined] and has
    no [forEach] or [push] method. *)
Definition proto_names : list string :=
  ["constructor"; "hasOwnProperty"; "isPrototypeOf"; "propertyIsEnumerable";
   "toLocaleString"; "toString"; "valueOf"; "__proto__";
   "__defineGetter__"; "__defineSetter__"; "__lookupGetter__"; "__lookupSetter__"].

Definition inherited (name : string) : bool := existsb (String.eqb name) proto_names.

(* ------------------------------------------------------------------ *)
(** ** [Obfuscator.emitter], [before] and [after] *)

Module Emitter.

Section Emit.
(** [St] is the state the handlers, the callback and the listeners act
    on; each of them reports whether it threw.  The [await callback()]
    is taken as completed: no other continuation runs in between. *)
Context {St : Type}.

(** A value registered with [before] or [after]: a function, or any
    other value (which [emitter] skips). *)
Inductive handler :=
  | HFn (f : St -> St * bool)
  | HOther.

(** The [console.error] lines of [emitter]. *)
Inductive errline :=
  | BeforeError (event : string)
  | CallbackError (event : string)
  | AfterError (event : string).

(** Why the promise returned by [emitter] is rejected. *)
Inductive failure :=
  | NotAFunction      (* [forEach] of an inherited value: a TypeError *)
  | UnhandledError    (* [super.emit("error")] with no listener *)
  | ListenerThrew.    (* a listener called by [super.emit] threw *)

(** [this.beforeHandlers] / [this.afterHandlers]: the own properties of a
    plain object, in insertion order. *)
Definition table := list (string * list handler).

Fixpoint own (t : table) (ev : string) : option (list handler) :=
  match t with
  | [] => None
  | (k, hs) :: r => if String.eqb k ev then Some hs else own r ev
  end.

(** [obj[event]]: an own array, an inherited value, or [undefined]. *)
Inductive prop :=
  | PList (hs : list handler)
  | PInherited
  | PUndefined.

Definition get (t : table) (ev : string) : prop :=
  match own t ev with
  | Some hs => PList hs
  | None => if inherited ev then PInherited else PUndefined
  end.

(** Assigning an own property that exists: replaced in place. *)
Definition set_own (t : table) (ev : string) (hs : list handler) : table :=
  map (fun p => if String.eqb (fst p) ev then (ev, hs) else p) t.

(** [before(event, handler)] on [beforeHandlers] ([after] is the same
    code on [afterHandlers]).  On an inherited name the array test is
    skipped and [push] of a function throws a TypeError. *)
Definition register (t : table) (ev : string) (h : handler) : result table :=
  match own t ev with
  | Some hs => Ok (set_own t ev (hs ++ [h])%list)
  | None => if inherited ev then Error TypeError else Ok (t ++ [(ev, [h])])%list
  end.

(** [hs.forEach(handler => { if (typeof handler === 'function') try ... catch ... })] *)
Fixpoint run_handlers (tag : string -> errline) (ev : string) (hs : list handler)
  (s : St) (log : list errline) : St * list errline :=
  match hs with
  | [] => (s, log)
  | HFn f :: r =>
      let '(s', threw) := f s in
      run_handlers tag ev r s' (if threw then log ++ [tag ev] else log)%list
  | HOther :: r => run_handlers tag ev r s log
  end.

(** [EventEmitter.prototype.emit]: the listeners in order; a throw stops
    the call and propagates.  ["error"] without a listener throws. *)
Fixpoint call_listeners (ls : list (St -> St * bool)) (s : St) : St * bool :=
  match ls with
  | [] => (s, false)
  | l :: r => let '(s', threw) := l s in if threw then (s', true) else call_listeners r s'
  end.

Definition emit (ev : string) (ls : list (St -> St * bool)) (s : St) : St * option failure :=
  if String.eqb ev "error" && Nat.eqb (length ls) 0 then (s, Some UnhandledError)
  else let '(s', threw) := call_listeners ls s in (s', if threw then Some ListenerThrew else None).

(** [emitter(event, callback)]: before-handlers, then (only when the
    callback is a function) the callback and [super.emit], then
    after-handlers.  [None] as callback stands for any non-function. *)
Definition emitter (before after : table) (ls : list (St -> St * bool)) (ev : string)
  (callback : option (St -> St * bool)) (s : St) : St * list errline * option failure :=
  match get before ev with
  | PInherited => (s, [], Some NotAFunction)
  | p =>
      let '(s1, log1) :=
        match p with PList hs => run_handlers BeforeError ev hs s [] | _ => (s, []) end in
      let '(s2, log2, f2) :=
        match callback with
        | None => (s1, log1, None)
        | Some cb =>
            let '(s', threw) := cb s1 in
            let log' := if threw then (log1 ++ [CallbackError ev])%list else log1 in
            let '(s'', f) := emit ev ls s' in (s'', log', f)
        end in
      match f2 with
      | Some f => (s2, log2, Some f)
      | None =>
          match get after ev with
          | PList hs => let '(s3, log3) := run_handlers AfterError ev hs s2 log2 in (s3, log3, None)
          | PInherited => (s2, log2, Some NotAFunction)
          | PUndefined => (s2, log2, None)
          end
      end
  end.

End Emit.
Arguments handler : clear implicits.
Arguments table : clear implicits.

End Emitter.

(* ------------------------------------------------------------------ *)
(** ** Business days ([calcBusinessDaysInBetween], [calcBusinessDaydueDate]) *)

Module Dates.

Definition day : Z := 86400000.
Definition maxTime : Z := 8640000000000000.

(** A [Date]: its time value in milliseconds since the epoch, or [None]
    for an Invalid Date (time value NaN). *)
Definition date := option Z.

Definition TimeClip (t : Z) : date := if (Z.abs t <=? maxTime)%Z then Some t else None.

(** [d.setUTCHours(0, 0, 0, 0)] *)
Definition setUTCHours0 (d : date) : date :=
  match d with Some t => TimeClip (t - t mod day)%Z | None => None end.

(** [d.setUTCDate(d.getUTCDate() + 1)]: the next day, same time of day. *)
Definition next_day (d : date) : date :=
  match d with Some t => TimeClip (t + day)%Z | None => None end.

(** [d.getUTCDay()]: 0 is Sunday; 1 January 1970 was a Thursday. *)
Definition getUTCDay (d : date) : option Z :=
  match d with Some t => Some ((t / day + 4) mod 7)%Z | None => None end.

(** [dayOfWeek !== 0 && dayOfWeek !== 6] (true for NaN). *)
Definition is_business (d : date) : bool :=
  match getUTCDay d with
  | Some w => negb (Z.eqb w 0) && negb (Z.eqb w 6)
  | None => true
  end.

(** [while (currDate < endDate) { ... }], for at most [fuel] turns
    ([None] when the fuel runs out); a comparison with NaN is false. *)
Fixpoint between_loop (fuel : nat) (cur end_ : date) (bDays : Z) : option Z :=
  match fuel with
  | O => None
  | S f =>
      match cur, end_ with
      | Some c, Some e =>
          if (c <? e)%Z
          then between_loop f (next_day cur) end_ (if is_business cur then bDays + 1 else bDays)%Z
          else Some bDays
      | _, _ => Some bDays
      end
  end.

(** [calcBusinessDaysInBetween(startDate, endDate)]: the count, and
    [endDate] as the call leaves it (it is set to its UTC midnight).
    [Error TypeError] stands for the RangeError of [toISOString] on an
    Invalid Date, thrown before [endDate] is touched. *)
Definition calcBusinessDaysInBetween (fuel : nat) (startDate endDate : date)
  : option (result Z * date) :=
  match startDate with
  | None => Some (Error TypeError, endDate)
  | Some _ =>
      let currDate := setUTCHours0 startDate in
      let endDate' := setUTCHours0 endDate in
      match between_loop fuel currDate endDate' 0 with
      | Some n => Some (Ok n, endDate')
      | None => None
      end
  end.

(** [while (numberOfDays) { ... }] for at most [fuel] turns. *)
Fixpoint due_loop (fuel : nat) (dueDate : date) (numberOfDays : Z) : option date :=
  match fuel with
  | O => None
  | S f =>
      if Z.eqb numberOfDays 0 then Some dueDate
      else
        let d' := next_day dueDate in
        due_loop f d' (if is_business d' then numberOfDays - 1 else numberOfDays)%Z
  end.

(** [calcBusinessDaydueDate(startDate, numberOfDays)] for an integer
    [numberOfDays]; [new Date(startDate)] copies the date. *)
Definition calcBusinessDaydueDate (fuel : nat) (startDate : date) (numberOfDays : Z) : option date :=
  due_loop fuel (setUTCHours0 startDate) numberOfDays.

(** The number of business days among the [k] days from [c] on. *)
Fixpoint bdays (c : Z) (k : nat) : Z :=
  match k with
  | O => 0
  | S k' => ((if is_business (Some c) then 1 else 0) + bdays (c + day) k')%Z
  end.

End Dates.

(* ------------------------------------------------------------------ *)
(** ** [getMIMEType] *)

Module Mime.

(** [filename.lastIndexOf(".")]: -1 when there is none. *)
Fixpoint lastIndexOf_dot_aux (s : string) (i : Z) (found : Z) : Z :=
  match s with
  | EmptyString => found
  | String c r => lastIndexOf_dot_aux r (i + 1)%Z (if Ascii.eqb c "." then i else found)
  end.

Definition lastIndexOf_dot (s : string) : Z := lastIndexOf_dot_aux s 0 (-1).

(** [s.substring(start)]: a negative start counts as 0. *)
Definition substring_from (s : string) (start : Z) : string :=
  let i := Z.to_nat (Z.max 0 start) in
  String.substring i (String.length s - i) s.

Definition mimeTypes : list (string * string) :=
  [(".txt", "text/plain");
   (".html", "text/html");
   (".csv", "text/csv");
   (".pdf", "application/pdf");
   (".ppt", "application/vnd.ms-powerpoint");
   (".pptx", "application/vnd.openxmlformats-officedocument.presentationml.presentation");
   (".doc", "application/msword");
   (".docx", "application/vnd.openxmlformats-officedocument.wordprocessingml.document");
   (".png", "image/png");
   (".jpg", "image/jpg");
   (".gif", "image/gif");
   (".svg", "image/svg+xml");
   (".xls", "application/vnd.ms-excel");
   (".xlsx", "application/vnd.openxmlformats-officedocument.spreadsheetml.sheet");
   (".xml", "application/xml");
   (".webp", "image/webp");
   (".zip", "application/zip")].

Fixpoint lookup_str (t : list (string * string)) (k : string) : option string :=
  match t with
  | [] => None
  | (k', v) :: r => if String.eqb k' k then Some v else lookup_str r k
  end.

(** What [getMIMEType] returns: a string, or the value of an inherited
    property of the object literal (a function, or [Object.prototype]). *)
Inductive mime :=
  | MimeString (s : string)
  | InheritedValue (name : string).

(** [_mimeTypes[fileExt] ?? "application/octet-stream"] *)
Definition getMIMEType (filename : string) : mime :=
  let fileExt := substring_from filename (lastIndexOf_dot filename) in
  match lookup_str mimeTypes fileExt with
  | Some m => MimeString m
  | None => if inherited fileExt then InheritedValue fileExt else MimeString "application/octet-stream"
  end.

Fixpoint has_dot (s : string) : bool :=
  match s with EmptyString => false | String c r => Ascii.eqb c "." || has_dot r end.

End Mime.

(* ------------------------------------------------------------------ *)
(** ** [removeDuplicatesFromList] and [sanitizeNull] *)

Module ListUtils.

Section Dedup.
(** The elements are primitives compared with SameValueZero, the
    equality of [Set]; [eqb] decides it. *)
Context {A : Type} (eqb : A -> A -> bool).

(** [new Set(list)]: each element is added unless present; a [Set]
    iterates in insertion order. *)
Fixpoint set_add_all (set : list A) (l : list A) : list A :=
  match l with
  | [] => set
  | x :: r => set_add_all (if existsb (eqb x) set then set else (set ++ [x])%list) r
  end.

(** [[...new Set(list)]] *)
Definition removeDuplicatesFromList (l : list A) : list A := set_add_all [] l.

End Dedup.

(** The argument of [sanitizeNull]: an object, given by its own
    enumerable string-keyed properties in [Object.entries] order, or a
    value for which [typeof obj !== "object" || obj === null]. *)
Inductive obj_arg :=
  | AnObject (entries : list (string * jsval))
  | NotAnObject.

(** [v !== null && v !== "" && v !== undefined] *)
Definition kept_value (v : jsval) : bool :=
  match v with
  | JNull | JUndefined => false
  | JString s => negb (String.eqb s "")
  | _ => true
  end.

(** [sanitizeNull(obj, exclude)]: the entries of the result, in order
    ([Object.fromEntries] of distinct keys keeps that order). *)
Definition sanitizeNull (obj : obj_arg) (exclude : list string) : result (list (string * jsval)) :=
  match obj with
  | NotAnObject => Error TypeError
  | AnObject es =>
      Ok (List.filter (fun p => existsb (String.eqb (fst p)) exclude || kept_value (snd p)) es)
  end.

End ListUtils.

Module Scenarios.

(** Jobs for the write serializer: A and C succeed, B throws, D succeeds
    and has a callback that succeeds. *)
Definition jobA := mkJob 1 Returns None.
Definition jobB := mkJob 2 Throws None.
Definition jobC := mkJob 3 Returns None.
Definition jobD := mkJob 4 Returns (Some Returns).

(** Enqueue A (whose work is then awaited), B and C, then let the pending
    drain loop run to its end. *)
Definition drain_abc : ProcessQueue.t job * list jevent :=
  match ProcessQueue.enqueue job_runner jobA (ProcessQueue.create 5000) [] with
  | Error _ => (ProcessQueue.create 5000, [])
  | Ok (p1, l1, None) => (p1, l1)
  | Ok (p1, l1, Some k) =>
      match ProcessQueue.enqueue job_runner jobB p1 l1 with
      | Error _ => (p1, l1)
      | Ok (p2, l2, _) =>
          match ProcessQueue.enqueue job_runner jobC p2 l2 with
          | Error _ => (p2, l2)
          | Ok (p3, l3, _) => ProcessQueue.drain job_runner 10 k p3 l3
          end
      end
  end.

(** A configured hash seed. *)
Definition seed0 : Z := 5381.

(** [await cache.write("k", "hello", "never", true)] on a new cache, with
    the queued write drained. *)
Definition hello_written : world :=
  run 50 (call_write (new_cache seed0) 1 "k" (JString "hello") Never true).

(** In one synchronous turn: [cache.read("k")] then
    [cache.obfuscate.rotateKey()]; nothing has run yet. *)
Definition rotation_started : world :=
  call_rotateKey (call_read hello_written 2 "k").

(** The turn's continuations have all run. *)
Definition rotation_done : world := run 50 rotation_started.

(** A read issued after the rotation finished. *)
Definition read_after_rotation : world := run 50 (call_read rotation_done 3 "k").

(** [write("k", 5n, "never", true)], drained, then [read("k")]. *)
Definition bigint_read : world :=
  run 50 (call_read (run 50 (call_write (new_cache seed0) 1 "k" (JBigInt 5) Never true)) 2 "k").

(** Two distinct keys with one hashed key: white space is stripped before
    hashing, not before the checksum. *)
Definition keyA : string := "a b".
Definition keyB : string := "ab".

(** [write(A, "A")] drained. *)
Definition after_keyA : world :=
  run 50 (call_write (new_cache seed0) 1 keyA (JString "A") Never false).

(** ... then [write(B, "B")] drained. *)
Definition collision_written : world :=
  run 50 (call_write after_keyA 2 keyB (JString "B") Never false).

(** The hashed key shared by A and B, the job queued by [write(B, "B")]
    and the entry stored by [write(A, "A")]. *)
Definition hashAB : Z := hash_loop seed0 keyB.
Definition job_keyB : wjob := mkWJob keyB hashAB (JString "B") Never false "string".
Definition entry_keyA : entry := mkEntry (JString "A") Never false "string" (createCheckSum keyA).

(** A new queue of capacity 3. *)
Definition queue3 : Queue.t nat := Queue.create 3.

(** A drain loop in flight (suspended on [await item()] of A), with B
    (which throws) and C queued. *)
Definition stalled_loop : ProcessQueue.t job :=
  match Queue.enqueue_all [jobB; jobC] (Queue.create 5) with
  | Ok q => ProcessQueue.mk q true
  | Error _ => ProcessQueue.create 5
  end.

(** [new Obfuscator()] at time 0 (rotation due after 90 days), the period
    set to 200 days at once, then 100 days pass. *)
Definition period_changed_100_days : Rotation.state :=
  Rotation.advance 100 (100 * Rotation.day)%Z
    (Rotation.set_defaultKeyRotationDuration Rotation.create (200 * Rotation.day)%Z).

(** A drain loop in flight (suspended on [await item()] of D, a job with
    a callback), with A and C (neither throws) queued. *)
Definition running_ac : ProcessQueue.t job :=
  match Queue.enqueue_all [jobA; jobC] (Queue.create 5) with
  | Ok q => ProcessQueue.mk q true
  | Error _ => ProcessQueue.create 5
  end.

End Scenarios.

(* ================================================================== *)
(** * Proofs *)

Open Scope nat_scope.
Open Scope list_scope.

(** ** The circular buffer *)

Module QueueFacts.
Import Queue.

Lemma mod_wrap (a C : nat) :
  0 < C -> a < 2 * C -> a mod C = if a <? C then a else a - C.
Proof.
  intros HC Ha. destruct (Nat.ltb_spec a C) as [Hlt|Hge].
  - apply Nat.mod_small; lia.
  - replace a with ((a - C) + 1 * C) at 1 by lia.
    rewrite Nat.Div0.mod_add. apply Nat.mod_small; lia.
Qed.

Lemma mod_lt (a C : nat) : 0 < C -> a mod C < C.
Proof. intros. apply Nat.mod_upper_bound. lia. Qed.

Section Facts.
Context {A : Type}.

Lemma at_index_insert (q : t A) r o j :
  r < length (items q) ->
  at_index (mk (capacity q) (<[r := o]> (items q)) (front q) (rear q) (size q)) j =
  if Nat.eqb j r then o else at_index q j.
Proof.
  intros Hr. unfold at_index; simpl.
  destruct (Nat.eqb_spec j r) as [->|Hne].
  - rewrite list_lookup_insert_eq by lia. reflexivity.
  - rewrite list_lookup_insert_ne by congruence. reflexivity.
Qed.

Lemma at_index_items (q q' : t A) j :
  items q = items q' -> at_index q j = at_index q' j.
Proof. unfold at_index. intros ->. reflexivity. Qed.

Lemma contents_length (q : t A) : length (contents q) = size q.
Proof. unfold contents. rewrite length_map, length_seq. reflexivity. Qed.

Lemma enqueue_full (q : t A) x :
  enqueue x q = Error QueueFull <-> size q = capacity q.
Proof.
  unfold enqueue, isFull. destruct (Nat.eqb_spec (size q) (capacity q)); split; congruence.
Qed.

Lemma enqueue_ok (q : t A) x :
  wf q -> size q <> capacity q ->
  exists q', enqueue x q = Ok q' /\ wf q' /\
    contents q' = (contents q ++ [Some x])%list /\
    size q' = S (size q) /\ capacity q' = capacity q.
Proof.
  intros (Hlen & Hsz & H0 & Hpos & Hall) Hne.
  assert (HC : 0 < capacity q) by (destruct (capacity q); [specialize (H0 eq_refl); lia | lia]).
  destruct (Hpos HC) as (Hf & Hr & Hrear).
  set (r := (rear q + 1) mod capacity q).
  assert (Hr' : r = (front q + size q) mod capacity q) by exact Hrear.
  set (q' := mk (capacity q) (<[r := Some x]> (items q)) (front q) r (size q + 1)).
  assert (Hrl : r < length (items q)) by (rewrite Hlen; apply mod_lt; lia).
  assert (Hc : contents q' = (contents q ++ [Some x])%list).
  { unfold contents. simpl.
    replace (size q + 1) with (S (size q)) by lia.
    rewrite seq_S, map_app. simpl. f_equal.
    - apply map_ext_in. intros i Hi. apply in_seq in Hi.
      change (at_index (mk (capacity q) (<[r := Some x]> (items q)) (front q) (rear q) (size q))
                ((front q + i) mod capacity q) = at_index q ((front q + i) mod capacity q)).
      rewrite at_index_insert by exact Hrl.
      destruct (Nat.eqb_spec ((front q + i) mod capacity q) r) as [Heq|]; [|reflexivity].
      exfalso. rewrite Hr' in Heq.
      rewrite (mod_wrap (front q + i)), (mod_wrap (front q + size q)) in Heq by lia.
      destruct (Nat.ltb_spec (front q + i) (capacity q));
        destruct (Nat.ltb_spec (front q + size q) (capacity q)); lia.
    - change (at_index (mk (capacity q) (<[r := Some x]> (items q)) (front q) (rear q) (size q))
                ((front q + size q) mod capacity q) :: [] = [Some x]).
      rewrite at_index_insert by exact Hrl.
      rewrite Hr', Nat.eqb_refl. reflexivity. }
  exists q'. split; [|split; [|split; [exact Hc|split; simpl; lia]]].
  - unfold enqueue, isFull. destruct (Nat.eqb_spec (size q) (capacity q)); [contradiction|reflexivity].
  - unfold wf. simpl. repeat split.
    + rewrite length_insert. exact Hlen.
    + lia.
    + lia.
    + exact Hf.
    + apply mod_lt; lia.
    + rewrite Hr', Nat.Div0.add_mod_idemp_l. f_equal. lia.
    + rewrite Hc. apply Forall_app. split; [exact Hall|]. constructor; [eexists; reflexivity|constructor].
Qed.

Lemma dequeue_empty (q : t A) :
  dequeue q = Error QueueEmpty <-> size q = 0.
Proof.
  unfold dequeue, isEmpty. destruct (Nat.eqb_spec (size q) 0); split; congruence.
Qed.

Lemma dequeue_ok (q : t A) :
  wf q -> size q <> 0 ->
  exists x q', dequeue q = Ok (Some x, q') /\ wf q' /\
    contents q = Some x :: contents q' /\
    size q' = size q - 1 /\ capacity q' = capacity q.
Proof.
  intros (Hlen & Hsz & H0 & Hpos & Hall) Hne.
  assert (HC : 0 < capacity q) by (destruct (capacity q); [specialize (H0 eq_refl); lia | lia]).
  destruct (Hpos HC) as (Hf & Hr & Hrear).
  set (q' := mk (capacity q) (<[front q := None]> (items q))
                 ((front q + 1) mod capacity q) (rear q) (size q - 1)).
  assert (Hfl : front q < length (items q)) by lia.
  assert (Hc : contents q = at_index q (front q) :: contents q').
  { unfold contents. destruct (size q) as [|n] eqn:Hs; [lia|].
    simpl (seq 0 (S n)). rewrite <- seq_shift. cbn [map]. rewrite map_map.
    rewrite Nat.add_0_r, Nat.mod_small by lia. f_equal.
    change (size q') with (S n - 1). replace (S n - 1) with n by lia.
    apply map_ext_in. intros i Hi. apply in_seq in Hi.
    change (at_index q ((front q + S i) mod capacity q) =
            at_index (mk (capacity q) (<[front q := None]> (items q)) (front q) (rear q) (size q))
              (((front q + 1) mod capacity q + i) mod capacity q)).
    rewrite at_index_insert by exact Hfl.
    rewrite Nat.Div0.add_mod_idemp_l.
    replace (front q + 1 + i) with (front q + S i) by lia.
    destruct (Nat.eqb_spec ((front q + S i) mod capacity q) (front q)) as [Heq|]; [|reflexivity].
    exfalso. rewrite (mod_wrap (front q + S i)) in Heq by lia.
    destruct (Nat.ltb_spec (front q + S i) (capacity q)); lia. }
  assert (Hsome : Forall (fun o => is_Some o) (at_index q (front q) :: contents q')) by (rewrite <- Hc; exact Hall).
  inversion Hsome as [|? ? [x Hx] Hrest]; subst.
  exists x, q'. split; [|split; [|split; [rewrite Hc, Hx; reflexivity|split; simpl; lia]]].
  - unfold dequeue, isEmpty. destruct (Nat.eqb_spec (size q) 0); [contradiction|].
    rewrite Hx. reflexivity.
  - unfold wf. simpl. repeat split.
    + rewrite length_insert. exact Hlen.
    + lia.
    + lia.
    + apply mod_lt; lia.
    + exact Hr.
    + rewrite Hrear. rewrite Nat.Div0.add_mod_idemp_l. f_equal. lia.
    + exact Hrest.
Qed.

Lemma peek_spec (q : t A) :
  (peek q = Error QueueEmpty <-> size q = 0) /\
  (size q <> 0 -> peek q = Ok (at_index q (front q))).
Proof.
  unfold peek, isEmpty. destruct (Nat.eqb_spec (size q) 0); split; try split; congruence.
Qed.

Lemma create_wf (C : nat) : wf (create C : t A).
Proof.
  unfold wf, create, contents. simpl. repeat split; try lia.
  - apply repeat_length.
  - replace (C - 1 + 1) with C by lia. rewrite Nat.Div0.mod_same, Nat.Div0.mod_0_l. reflexivity.
  - constructor.
Qed.

Lemma enqueue_all_fill (xs : list A) (q : t A) :
  wf q -> size q + length xs <= capacity q ->
  exists q', enqueue_all xs q = Ok q' /\ wf q' /\
    contents q' = (contents q ++ map Some xs)%list /\
    size q' = size q + length xs /\ capacity q' = capacity q.
Proof.
  revert q. induction xs as [|x r IH]; intros q Hwf Hle.
  - exists q. simpl. rewrite app_nil_r. split; [reflexivity|]. split; [exact Hwf|].
    split; [reflexivity|]. simpl. split; lia.
  - simpl in Hle.
    destruct (enqueue_ok q x Hwf ltac:(lia)) as (q1 & He & Hwf1 & Hc1 & Hs1 & Hcap1).
    destruct (IH q1 Hwf1 ltac:(lia)) as (q2 & He2 & Hwf2 & Hc2 & Hs2 & Hcap2).
    exists q2. simpl. rewrite He.
    split; [exact He2|]. split; [exact Hwf2|].
    split; [rewrite Hc2, Hc1, <- app_assoc; reflexivity|].
    split; [simpl; lia|congruence].
Qed.

End Facts.
End QueueFacts.

(** ** The drain loop *)

Module DrainFacts.
Import Queue ProcessQueue QueueFacts.

Section Facts.
Context {St J : Type} (r : runner St J).

(** One pass of the loop body on a non-empty queue: the oldest job is
    dequeued and its function called. *)
Lemma loop_top_step (q : Queue.t J) (s : St) (j : J) (rest : list (option J)) :
  wf q -> contents q = Some j :: rest ->
  exists q', wf q' /\ contents q' = rest /\ capacity q' = capacity q /\
    size q' = size q - 1 /\
    loop_top r q s =
      (let '(s1, e) := call_item r j s in
       match e with
       | Some _ => stop r q' s1 e
       | None => (mk q' true, s1, Some (AfterItem j))
       end).
Proof.
  intros Hwf Hc.
  assert (Hs : size q <> 0).
  { rewrite <- contents_length, Hc. simpl. lia. }
  destruct (dequeue_ok q Hwf Hs) as (x & q' & Hd & Hwf' & Hc' & Hs' & Hcap).
  rewrite Hc in Hc'. injection Hc' as -> Hrest.
  exists q'. split; [exact Hwf'|]. split; [congruence|]. split; [exact Hcap|]. split; [exact Hs'|].
  unfold loop_top, isEmpty. destruct (Nat.eqb_spec (size q) 0); [contradiction|].
  rewrite Hd. reflexivity.
Qed.

Lemma drain_top_empty (q : Queue.t J) (s : St) (fuel : nat) :
  contents q = [] -> drain_from_top r fuel q s = (mk q false, s).
Proof.
  intros Hc. assert (Hs : size q = 0) by (rewrite <- contents_length, Hc; reflexivity).
  unfold drain_from_top, loop_top, isEmpty. rewrite Hs. reflexivity.
Qed.

End Facts.

Definition ran (js : list job) : list jevent := map (fun x => Ran (jid x)) js.

(** A suspended job that does not fail hands the loop back to its test
    after one or two continuations. *)
Lemma drain_after_ok (j : job) (f : nat) (p : ProcessQueue.t job) (s : list jevent) :
  job_fails j = false ->
  exists f', f <= f' /\ drain job_runner (S (S f)) (AfterItem j) p s = drain_from_top job_runner f' (queue p) s.
Proof.
  unfold job_fails. destruct j as [n w cb]. cbn [work callback].
  destruct w; [|discriminate|discriminate].
  destruct cb as [[]|]; try discriminate; intros _.
  - exists f. split; [lia|]. reflexivity.
  - exists (S f). split; [lia|]. reflexivity.
Qed.

(** A run of jobs that do not fail is executed in order. *)
Lemma drain_top_app (pre : list job) : forall (fuel : nat) (q : Queue.t job) (log : list jevent)
  (R : list (option job)),
  wf q -> contents q = (map Some pre ++ R)%list ->
  Forall (fun j => job_fails j = false) pre -> 2 * length pre <= fuel ->
  exists q' f', wf q' /\ contents q' = R /\ capacity q' = capacity q /\
    size q' = size q - length pre /\ fuel - 2 * length pre <= f' /\
    drain_from_top job_runner fuel q log = drain_from_top job_runner f' q' (log ++ ran pre)%list.
Proof.
  induction pre as [|j pre IH]; intros fuel q log R Hwf Hc Hok Hle.
  - exists q, fuel. simpl. rewrite app_nil_r.
    split; [exact Hwf|]. split; [exact Hc|]. split; [reflexivity|]. split; [lia|]. split; [lia|reflexivity].
  - inversion Hok as [|? ? Hj Hok']; subst.
    destruct (loop_top_step job_runner q log j (map Some pre ++ R)%list Hwf Hc)
      as (q1 & Hwf1 & Hc1 & Hcap1 & Hs1 & Hit).
    assert (Hcall : call_item job_runner j log = ((log ++ [Ran (jid j)])%list, None)).
    { unfold job_fails in Hj. simpl. destruct (work j); [reflexivity|discriminate|discriminate]. }
    rewrite Hcall in Hit.
    destruct fuel as [|[|f]]; [simpl in Hle; lia|simpl in Hle; lia|].
    destruct (drain_after_ok j f (mk q1 true) (log ++ [Ran (jid j)])%list Hj) as (f1 & Hf1 & Hd1).
    destruct (IH f1 q1 (log ++ [Ran (jid j)])%list R Hwf1 Hc1 Hok' ltac:(simpl in Hle; lia))
      as (q' & f' & Hwf' & Hc' & Hcap' & Hs' & Hf' & Hd').
    exists q', f'. split; [exact Hwf'|]. split; [exact Hc'|]. split; [congruence|].
    split; [simpl; lia|]. split; [simpl in *; lia|].
    unfold drain_from_top at 1. rewrite Hit. rewrite Hd1. simpl queue. rewrite Hd'.
    unfold ran. simpl. rewrite <- app_assoc. reflexivity.
Qed.

(** A job that fails ends the loop: its error is logged and the loop
    stops with [isExecuting] cleared. *)
Lemma drain_top_fail (f : job) (fuel : nat) (q : Queue.t job) (log : list jevent)
  (rest : list (option job)) :
  wf q -> contents q = Some f :: rest -> job_fails f = true -> 2 <= fuel ->
  exists q', wf q' /\ contents q' = rest /\ capacity q' = capacity q /\ size q' = size q - 1 /\
    drain_from_top job_runner fuel q log =
      (mk q' false, (log ++ [Ran (jid f); Caught (JobFailed (jid f))])%list).
Proof.
  intros Hwf Hc Hf Hle.
  destruct (loop_top_step job_runner q log f rest Hwf Hc) as (q' & Hwf' & Hc' & Hcap & Hs & Hit).
  exists q'. split; [exact Hwf'|]. split; [exact Hc'|]. split; [exact Hcap|]. split; [exact Hs|].
  destruct fuel as [|[|g]]; [lia|lia|].
  unfold drain_from_top. rewrite Hit. unfold job_fails in Hf.
  destruct f as [n w cb]. cbn [work callback jid] in *.
  destruct w; [destruct cb as [[]|]; try discriminate|..];
    simpl; rewrite <- app_assoc; reflexivity.
Qed.

End DrainFacts.

(* ------------------------------------------------------------------ *)
(** ** Claims on the queue and the write serializer *)

Module QueueClaims.
Import Queue QueueFacts.

(** C8 (confirmed).  Bounded FIFO contract of [Queue]: on every queue
    built by the constructor and the operations, [enqueue] fails with
    [QueueFull] exactly when [size = capacity] and otherwise appends the
    item, adding one to [size]; [dequeue] and [peek] fail with
    [QueueEmpty] exactly when [size = 0], and otherwise [dequeue] removes
    and returns the oldest item, taking one from [size] ([peek] returns
    the same item).  A new queue of capacity [C] takes [C] enqueues and
    refuses the next one. *)
Theorem queue_bounded_fifo_contract {A : Type} (q : Queue.t A) (x : A) :
  wf q ->
  (enqueue x q = Error QueueFull <-> size q = capacity q) /\
  (size q <> capacity q ->
     exists q', enqueue x q = Ok q' /\ wf q' /\
       contents q' = (contents q ++ [Some x])%list /\
       size q' = size q + 1 /\ capacity q' = capacity q) /\
  (dequeue q = Error QueueEmpty <-> size q = 0) /\
  (peek q = Error QueueEmpty <-> size q = 0) /\
  (size q <> 0 ->
     exists y q', dequeue q = Ok (Some y, q') /\ peek q = Ok (Some y) /\ wf q' /\
       contents q = Some y :: contents q' /\
       size q' = size q - 1 /\ capacity q' = capacity q) /\
  (forall (C : nat) (xs : list A) (z : A), length xs = C ->
     exists q', enqueue_all xs (create C) = Ok q' /\
       contents q' = map Some xs /\ enqueue z q' = Error QueueFull).
Proof.
  intros Hwf. split; [apply enqueue_full|].
  split.
  { intros Hne. destruct (enqueue_ok q x Hwf Hne) as (q' & He & Hwf' & Hc & Hs & Hcap).
    exists q'. split; [exact He|]. split; [exact Hwf'|]. split; [exact Hc|].
    split; [lia|exact Hcap]. }
  split; [apply dequeue_empty|].
  split; [apply peek_spec|].
  split.
  { intros Hne. destruct (dequeue_ok q Hwf Hne) as (y & q' & Hd & Hwf' & Hc & Hs & Hcap).
    exists y, q'. split; [exact Hd|]. split.
    - destruct (peek_spec q) as [_ Hp]. rewrite (Hp Hne). f_equal.
      unfold dequeue in Hd. destruct (isEmpty q); [discriminate|].
      injection Hd as Hy _. exact Hy.
    - split; [exact Hwf'|]. split; [exact Hc|]. split; [exact Hs|exact Hcap]. }
  intros C xs z Hlen.
  destruct (enqueue_all_fill xs (create C) (create_wf C)) as (q' & He & Hwf' & Hc & Hs & Hcap).
  { simpl. lia. }
  exists q'. split; [exact He|]. split.
  - rewrite Hc. reflexivity.
  - apply enqueue_full. rewrite Hs, Hcap. simpl. lia.
Qed.

End QueueClaims.

Module DrainClaims.
Import Queue ProcessQueue QueueFacts DrainFacts Scenarios.

(** C2 (corrected): counterexample.  With A in flight, B throwing and C
    queued behind B, the drain loop stops at B: C has not run, it is still
    queued, and no drain loop is running. *)
Lemma drain_failure_strands_later_jobs :
  ~ In (Ran 3) (snd drain_abc) /\ snd drain_abc = [Ran 1; Ran 2; Caught (JobFailed 2)] /\
  contents (queue (fst drain_abc)) = [Some jobC] /\ isExecuting (fst drain_abc) = false.
Proof. vm_compute. split; [intros [H|[H|[H|[]]]]; discriminate|]. repeat split; reflexivity. Qed.

(** C2 (corrected): amended.  When a job's function or callback throws
    (synchronously or by a rejected promise) inside a drain loop, the
    error is caught and logged, and the loop ends: the jobs before it have
    run, in order, and [isExecuting] is reset; the jobs queued behind it
    stay queued, in order, and the loop started by the next [enqueue] runs
    them, then the new job. *)
Theorem drain_stops_at_throw_next_enqueue_resumes
  (p : ProcessQueue.t job) (log : list jevent) (j0 : job) (pre : list job) (f : job)
  (rest : list job) (j : job) (fuel : nat) :
  wf (queue p) -> isExecuting p = true ->
  contents (queue p) = map Some (pre ++ f :: rest) ->
  job_fails j0 = false ->
  Forall (fun x => job_fails x = false) pre -> job_fails f = true ->
  Forall (fun x => job_fails x = false) (rest ++ [j]) ->
  2 * (length pre + length rest) + 6 < fuel ->
  let '(p1, log1) := drain job_runner fuel (AfterItem j0) p log in
  isExecuting p1 = false /\
  log1 = (log ++ ran (pre ++ [f]) ++ [Caught (JobFailed (jid f))])%list /\
  contents (queue p1) = map Some rest /\
  exists p2 log2 k,
    ProcessQueue.enqueue job_runner j p1 log1 = Ok (p2, log2, Some k) /\
    let '(p3, log3) := drain job_runner fuel k p2 log2 in
    isExecuting p3 = false /\ log3 = (log1 ++ ran (rest ++ [j]))%list /\
    contents (queue p3) = [].
Proof.
  intros Hwf _ Hc Hj0 Hpre Hf Hrest Hfuel.
  rewrite map_app in Hc. simpl in Hc.
  destruct fuel as [|[|f0]]; [lia|lia|].
  destruct (drain_after_ok j0 f0 p log Hj0) as (f1 & Hf1 & Hd0). rewrite Hd0.
  destruct (drain_top_app pre f1 (queue p) log (Some f :: map Some rest) Hwf Hc Hpre ltac:(lia))
    as (q' & f2 & Hwf' & Hc' & Hcap' & Hs' & Hf2 & Hd).
  rewrite Hd.
  destruct (drain_top_fail f f2 q' (log ++ ran pre)%list (map Some rest) Hwf' Hc' Hf ltac:(lia))
    as (q1 & Hwf1 & Hc1 & Hcap1 & Hs1 & Hd1).
  rewrite Hd1. cbn [isExecuting queue].
  split; [reflexivity|].
  split; [unfold ran; rewrite map_app, <- !app_assoc; reflexivity|].
  split; [exact Hc1|].
  (* the next enqueue *)
  assert (Hroom : size q1 <> capacity q1).
  { destruct Hwf as (_ & Hsz & _).
    assert (length (contents (queue p)) = size (queue p)) by apply contents_length.
    rewrite Hc, length_app, length_map in H. simpl in H. rewrite length_map in H.
    rewrite <- contents_length, Hc1, length_map. lia. }
  destruct (enqueue_ok q1 j Hwf1 Hroom) as (q2 & He & Hwf2 & Hc2 & Hs2 & Hcap2).
  set (L := ((log ++ ran pre) ++ [Ran (jid f); Caught (JobFailed (jid f))])%list).
  assert (Hc2' : contents q2 = map Some (rest ++ [j])) by (rewrite Hc2, Hc1, map_app; reflexivity).
  destruct (rest ++ [j]) as [|h t] eqn:Hrj; [destruct rest; discriminate|].
  inversion Hrest as [|? ? Hh Ht]; subst.
  destruct (loop_top_step job_runner q2 L h (map Some t) Hwf2 Hc2')
    as (q3 & Hwf3 & Hc3 & Hcap3 & Hs3 & Hit3).
  assert (Hcall : call_item job_runner h L = ((L ++ [Ran (jid h)])%list, None)).
  { unfold job_fails in Hh. simpl. destruct (work h); [reflexivity|discriminate|discriminate]. }
  rewrite Hcall in Hit3.
  assert (Hne : isEmpty q2 = false).
  { unfold isEmpty. rewrite Hs2. reflexivity. }
  unfold ProcessQueue.enqueue. cbn [queue isExecuting]. rewrite He.
  unfold execute. cbn [queue isExecuting]. rewrite Hne. cbn [orb]. rewrite Hit3.
  eexists _, _, _. split; [reflexivity|].
  assert (Hlen : length (h :: t) = length rest + 1) by (rewrite <- Hrj, length_app; reflexivity).
  simpl in Hlen.
  destruct (drain_after_ok h f0 (mk q3 true) (L ++ [Ran (jid h)])%list Hh) as (g1 & Hg1 & Hdh).
  rewrite Hdh. cbn [queue].
  destruct (drain_top_app t g1 q3 (L ++ [Ran (jid h)])%list [] Hwf3
              ltac:(rewrite app_nil_r; exact Hc3) Ht ltac:(lia))
    as (q4 & g2 & _ & Hc4 & _ & _ & _ & Hd4).
  rewrite Hd4, (drain_top_empty job_runner q4 _ g2 Hc4). cbn [isExecuting queue].
  split; [reflexivity|]. split; [|exact Hc4].
  unfold ran. simpl. rewrite <- !app_assoc. reflexivity.
Qed.

End DrainClaims.

(* ------------------------------------------------------------------ *)
(** ** Maps and entries *)

Module MapFacts.

Lemma map_get_app_none (m : jsmap) k l :
  map_get m k = None -> map_get (m ++ [(k, l)]) k = Some l.
Proof.
  induction m as [|[k' l'] r IH]; simpl; intros H.
  - rewrite Z.eqb_refl. reflexivity.
  - destruct (Z.eqb k k'); [discriminate|]. auto.
Qed.

Lemma map_get_replace (m : jsmap) k l :
  map_has m k = true ->
  map_get (map (fun p => if Z.eqb (fst p) k then (k, l) else p) m) k = Some l.
Proof.
  unfold map_has. induction m as [|[k' l'] r IH]; simpl; intros H; [discriminate|].
  destruct (Z.eqb_spec k k') as [->|Hne].
  - rewrite Z.eqb_refl. simpl. rewrite Z.eqb_refl. reflexivity.
  - destruct (Z.eqb_spec k' k); [congruence|]. simpl.
    destruct (Z.eqb_spec k k'); [congruence|]. auto.
Qed.

Lemma map_get_set_eq (m : jsmap) k l : map_get (map_set m k l) k = Some l.
Proof.
  unfold map_set. destruct (map_has m k) eqn:H.
  - apply map_get_replace. exact H.
  - apply map_get_app_none. unfold map_has in H. destruct (map_get m k); [discriminate|reflexivity].
Qed.

Lemma map_get_set_ne (m : jsmap) k l h : h <> k -> map_get (map_set m k l) h = map_get m h.
Proof.
  intros Hhk. unfold map_set. destruct (map_has m k).
  - induction m as [|[k' l'] r IH]; simpl; [reflexivity|].
    destruct (Z.eqb_spec k' k) as [->|]; simpl.
    + destruct (Z.eqb_spec h k); [congruence|exact IH].
    + destruct (Z.eqb h k'); [reflexivity|exact IH].
  - induction m as [|[k' l'] r IH]; simpl.
    + destruct (Z.eqb_spec h k); [congruence|reflexivity].
    + destruct (Z.eqb h k'); [reflexivity|exact IH].
Qed.

Lemma map_get_delete_eq (m : jsmap) k : map_get (snd (map_delete m k)) k = None.
Proof.
  unfold map_delete. simpl. induction m as [|[k' l'] r IH]; simpl; [reflexivity|].
  destruct (Z.eqb_spec k' k) as [->|Hne]; simpl; [exact IH|].
  destruct (Z.eqb_spec k k'); [congruence|exact IH].
Qed.

Lemma map_get_delete_ne (m : jsmap) k h :
  h <> k -> map_get (snd (map_delete m k)) h = map_get m h.
Proof.
  intros Hhk. unfold map_delete. simpl. induction m as [|[k' l'] r IH]; simpl; [reflexivity|].
  destruct (Z.eqb_spec k' k) as [->|Hne]; simpl.
  - destruct (Z.eqb_spec h k); [congruence|exact IH].
  - destruct (Z.eqb h k'); [reflexivity|exact IH].
Qed.


Lemma map_has_get (m : jsmap) k : map_has m k = match map_get m k with Some _ => true | None => false end.
Proof. reflexivity. Qed.

End MapFacts.

Module CacheFacts.
Import MapFacts.

Lemma string_app_inj (p a b : string) : (p ++ a)%string = (p ++ b)%string -> a = b.
Proof. induction p as [|c p IH]; simpl; [auto|]. intros H. injection H as H. exact (IH H). Qed.

Lemma createCheckSum_inj (a b : string) : createCheckSum a = createCheckSum b -> a = b.
Proof. unfold createCheckSum. apply string_app_inj. Qed.


(** The stored entry after a write job whose checksum check passes. *)
Lemma write_job_stores (j : wjob) (c : cache) :
  validateKeyCheckSum c (j_hKey j) (createCheckSum (j_key j)) = true ->
  let c' := fst (write_job j c) in
  entry_at c' (j_hKey j) =
    Some (mkEntry (j_value j) (j_expiration j) (j_obfuscate j) (j_type j) (createCheckSum (j_key j))) /\
  seed c' = seed c /\ charm c' = charm c /\ snd (write_job j c) = ttl_too_long (j_expiration j) /\
  (forall h, h <> j_hKey j -> map_get (data c) h = None -> map_get (data c') h = None).
Proof.
  intros Hv. unfold write_job.
  assert (Hget : forall h, h <> j_hKey j -> map_get (data c) h = None ->
            map_get (map_set (data c) (j_hKey j) (next_obj c)) h = None).
  { intros h Hne Hn. rewrite map_get_set_ne by exact Hne. exact Hn. }
  unfold write_job_run. rewrite Hv.
  destruct (j_expiration j) as [|ms]; simpl; [|destruct (ms >? maxTotalDelay)%Z]; simpl;
    (split; [unfold entry_at; simpl; rewrite map_get_set_eq; simpl;
             rewrite lookup_insert_eq; reflexivity|]);
    (split; [reflexivity|]); (split; [reflexivity|]); (split; [reflexivity|]);
    exact Hget.
Qed.

(** A write job whose checksum check fails: it logs, removes the
    bucket, stores nothing. *)
Lemma write_job_collision (c : cache) (j : wjob) (l : nat) (e : entry) :
  createHashKey (seed c) (j_key j) = Ok (j_hKey j) ->
  map_get (data c) (j_hKey j) = Some l -> heap c !! l = Some e ->
  checksum e <> createCheckSum (j_key j) ->
  let '(c', threw) := write_job j c in
  threw = false /\ map_get (data c') (j_hKey j) = None /\ heap c' = heap c /\
  logs c' = (logs c ++ [Warn collision_warning])%list /\
  (forall h, h <> j_hKey j -> map_get (data c') h = map_get (data c) h) /\
  seed c' = seed c.
Proof.
  intros Hh Hget Hheap Hcs.
  unfold write_job, write_job_run, validateKeyCheckSum. rewrite Hget, Hheap.
  destruct (String.eqb_spec (checksum e) (createCheckSum (j_key j))) as [|_]; [contradiction|].
  unfold delete. simpl. rewrite Hh. simpl.
  split; [reflexivity|]. split; [apply map_get_delete_eq|].
  split; [reflexivity|]. split; [reflexivity|].
  split; [|reflexivity].
  intros h Hne. apply map_get_delete_ne. exact Hne.
Qed.

End CacheFacts.

Module HeapFacts.
Import MapFacts.

Lemma map_get_in (m : jsmap) k l : map_get m k = Some l -> In l (map snd m).
Proof.
  induction m as [|[k' l'] r IH]; simpl; [discriminate|].
  destruct (Z.eqb k k'); [intros [= ->]; left; reflexivity|intros H; right; exact (IH H)].
Qed.

Lemma decode_all_other (k : string) (h : gmap nat entry) (m : jsmap) (l : nat) :
  ~ In l (map snd m) -> fst (decode_all k h m) !! l = h !! l.
Proof.
  revert h. induction m as [|[x l'] r IH]; intros h Hn; simpl; [reflexivity|].
  simpl in Hn. destruct (h !! l') as [e|] eqn:He; [|reflexivity].
  destruct (decode k (value e)) as [v|er]; [|reflexivity].
  rewrite IH by tauto. apply lookup_insert_ne. intros ->. tauto.
Qed.

Lemma decode_all_ok (k : string) (h : gmap nat entry) (m : jsmap) :
  NoDup (map snd m) ->
  Forall (fun p => exists e v, h !! snd p = Some e /\ decode k (value e) = Ok v) m ->
  snd (decode_all k h m) = None /\
  forall l e v, In l (map snd m) -> h !! l = Some e -> decode k (value e) = Ok v ->
    fst (decode_all k h m) !! l = Some (set_value e v).
Proof.
  revert h. induction m as [|[x l'] r IH]; intros h Hnd Hall.
  - split; [reflexivity|]. intros l e v [].
  - simpl in Hnd. apply NoDup_cons in Hnd as [Hnin Hnd]. rewrite list_elem_of_In in Hnin.
    apply Forall_cons in Hall as [(e' & v' & He' & Hd') Hall]. simpl in He'.
    assert (Hall' : Forall (fun p => exists e v, <[l':=set_value e' v']> h !! snd p = Some e /\
                                       decode k (value e) = Ok v) r).
    { apply List.Forall_forall. intros [y ly] Hin.
      rewrite List.Forall_forall in Hall. destruct (Hall _ Hin) as (e2 & v2 & H2 & D2).
      exists e2, v2. split; [|exact D2]. simpl in *.
      rewrite lookup_insert_ne; [exact H2|].
      intros ->. apply Hnin. apply (in_map snd _ _ Hin). }
    destruct (IH _ Hnd Hall') as [Hnone Hin].
    simpl. rewrite He', Hd'. split; [exact Hnone|].
    intros l e v [->|Hl] He Hd.
    + rewrite decode_all_other by exact Hnin. rewrite lookup_insert_eq.
      rewrite He' in He. injection He as <-. rewrite Hd' in Hd. injection Hd as <-. reflexivity.
    + apply Hin; [exact Hl| |exact Hd].
      rewrite lookup_insert_ne; [exact He|]. intros ->. contradiction.
Qed.

Lemma decode_all_fail (k : string) (h : gmap nat entry) (m : jsmap) (l : nat) (e : entry) (er : err) :
  NoDup (map snd m) -> In l (map snd m) -> h !! l = Some e -> decode k (value e) = Error er ->
  fst (decode_all k h m) !! l = Some e.
Proof.
  revert h. induction m as [|[x l'] r IH]; intros h Hnd Hin He Hd; [destruct Hin|].
  simpl in Hnd. apply NoDup_cons in Hnd as [Hnin Hnd]. rewrite list_elem_of_In in Hnin.
  simpl. destruct (h !! l') as [e'|] eqn:He'; [|exact He].
  destruct (decode k (value e')) as [v'|er'] eqn:Hd'; [|exact He].
  simpl in Hin. destruct Hin as [->|Hl].
  - rewrite He in He'. injection He' as <-. rewrite Hd in Hd'. discriminate.
  - apply IH; [exact Hnd|exact Hl| |exact Hd].
    rewrite lookup_insert_ne; [exact He|]. intros ->. contradiction.
Qed.


Lemma decode_all_is_some (k : string) (h : gmap nat entry) (m : jsmap) (l : nat) :
  is_Some (h !! l) -> is_Some (fst (decode_all k h m) !! l).
Proof.
  revert h. induction m as [|[x l'] r IH]; intros h Hs; simpl; [exact Hs|].
  destruct (h !! l') as [e|] eqn:He; [|exact Hs].
  destruct (decode k (value e)); [|exact Hs].
  apply IH. destruct (decide (l = l')) as [->|Hne].
  - rewrite lookup_insert_eq. eexists. reflexivity.
  - rewrite lookup_insert_ne by congruence. exact Hs.
Qed.

Lemma encode_all_other (k : string) (r : nat) (h : gmap nat entry) (m : jsmap) (l : nat) :
  ~ In l (map snd m) -> fst (encode_all k r h m) !! l = h !! l.
Proof.
  revert r h. induction m as [|[x l'] rest IH]; intros r h Hn; simpl; [reflexivity|].
  simpl in Hn. destruct (h !! l') as [e|] eqn:He; [|reflexivity].
  destruct (encode k r (value e)) as [v r'].
  rewrite IH by tauto. apply lookup_insert_ne. intros ->. tauto.
Qed.

Lemma encode_all_ok (k : string) (r : nat) (h : gmap nat entry) (m : jsmap) (l : nat) (e : entry) :
  NoDup (map snd m) -> Forall (fun p => is_Some (h !! snd p)) m ->
  In l (map snd m) -> h !! l = Some e ->
  exists r0, fst (encode_all k r h m) !! l = Some (set_value e (fst (encode k r0 (value e)))).
Proof.
  revert r h. induction m as [|[x l'] rest IH]; intros r h Hnd Hall Hin He; [destruct Hin|].
  simpl in Hnd. apply NoDup_cons in Hnd as [Hnin Hnd]. rewrite list_elem_of_In in Hnin.
  apply Forall_cons in Hall as [[e' He'] Hall]. simpl in He'.
  simpl. rewrite He'. destruct (encode k r (value e')) as [v r'] eqn:Henc.
  simpl in Hin. destruct Hin as [->|Hl].
  - exists r. rewrite encode_all_other by exact Hnin. rewrite lookup_insert_eq.
    rewrite He in He'. injection He' as <-. rewrite Henc. reflexivity.
  - apply IH; [exact Hnd| |exact Hl|].
    + apply List.Forall_forall. intros [y ly] Hy. rewrite List.Forall_forall in Hall.
      simpl. rewrite lookup_insert_ne; [exact (Hall _ Hy)|].
      intros ->. apply Hnin. apply (in_map snd _ _ Hy).
    + rewrite lookup_insert_ne; [exact He|]. intros ->. contradiction.
Qed.

(** The cache after a completed rotation, as [handleKeyRotated] leaves it. *)
Lemma rotation_shape (c : cache) (k' : string) (r' : nat) :
  let c' := handleKeyRotated (with_key (handleBeforeKeyRotated c) k' r') in
  data c' = data c /\ seed c' = seed c /\ charm c' = k' /\ isPaused c' = false /\
  temp c' = [] /\
  heap c' = fst (encode_all k' r' (fst (decode_all (charm c) (heap c) (data c))) (data c)).
Proof.
  unfold handleKeyRotated, handleBeforeKeyRotated. simpl.
  destruct (decode_all (charm c) (heap c) (data c)) as [h oerr].
  destruct oerr; simpl;
  destruct (encode_all k' r' h (data c)) as [h' r'']; simpl;
  repeat split; reflexivity.
Qed.

End HeapFacts.

(* ------------------------------------------------------------------ *)
(** ** Claims on the cache *)

Module CacheClaims.
Import MapFacts CacheFacts HeapFacts Scenarios.

(** C4 (confirmed).  Collision policy of the queued write job: when an
    entry already sits under the job's hashed key with a checksum other
    than the checksum of the job's key, the job does not throw, logs the
    collision warning, removes that entry (the bucket is then empty),
    stores nothing (no entry object is created) and leaves every other
    bucket as it was. *)
Theorem collision_job_deletes_and_drops (c : cache) (j : wjob) (l : nat) (e : entry) :
  createHashKey (seed c) (j_key j) = Ok (j_hKey j) ->
  map_get (data c) (j_hKey j) = Some l -> heap c !! l = Some e ->
  checksum e <> createCheckSum (j_key j) ->
  let '(c', threw) := write_job j c in
  threw = false /\ map_get (data c') (j_hKey j) = None /\ heap c' = heap c /\
  logs c' = (logs c ++ [Warn collision_warning])%list /\
  (forall h, h <> j_hKey j -> map_get (data c') h = map_get (data c) h).
Proof.
  intros Hh Hget Hheap Hcs.
  pose proof (write_job_collision c j l e Hh Hget Hheap Hcs) as H.
  destruct (write_job j c) as [c' threw].
  destruct H as (H1 & H2 & H3 & H4 & H5 & _). auto.
Qed.

(** C5 (corrected): counterexample.  Keys ["a b"] and ["ab"] differ and
    share a hashed key.  After [write(A)] and then [write(B)] have drained,
    [has(B)] is false, not true: the second job removed A's entry and did
    not store B's. *)
Lemma collision_leaves_neither_key :
  ~ (world_has collision_written keyA = Ok false /\ world_has collision_written keyB = Ok true).
Proof. vm_compute. intros [_ H]. discriminate. Qed.

(** C5 (corrected): amended.  For two distinct keys A and B with one
    hashed key, starting with no entry of another key in that bucket, the
    job of [write(A)] stores A's entry and throws only when A's expiration
    is a duration above [maxTotalDelay] (from [#runCacheCleanup], after the
    entry is stored); the job of [write(B)] then completes without
    throwing; afterwards [has(A)] and [has(B)] are both false, and the
    collision warning has been logged. *)
Theorem collision_leaves_bucket_empty (c : cache) (a b : string) (h : Z)
  (va vb : jsval) (ta tb : ttl) (oa ob : bool) (tya tyb : string) :
  createHashKey (seed c) a = Ok h -> createHashKey (seed c) b = Ok h -> a <> b ->
  validateKeyCheckSum c h (createCheckSum a) = true ->
  let '(c1, t1) := write_job (mkWJob a h va ta oa tya) c in
  let '(c2, t2) := write_job (mkWJob b h vb tb ob tyb) c1 in
  t1 = ttl_too_long ta /\ t2 = false /\ has c2 a = Ok false /\ has c2 b = Ok false /\
  In (Warn collision_warning) (logs c2).
Proof.
  intros Ha Hb Hab Hv.
  destruct (write_job_stores (mkWJob a h va ta oa tya) c Hv) as (Hent & Hseed & _ & Hthr & _).
  simpl in Hent, Hthr.
  destruct (write_job (mkWJob a h va ta oa tya) c) as [c1 t1] eqn:Hw1. simpl in *.
  unfold entry_at in Hent. destruct (map_get (data c1) h) as [l|] eqn:Hl; [|discriminate].
  assert (Hcs : checksum (mkEntry va ta oa tya (createCheckSum a)) <> createCheckSum b).
  { simpl. intros Heq. apply Hab. apply createCheckSum_inj. exact Heq. }
  pose proof (write_job_collision c1 (mkWJob b h vb tb ob tyb) l _
                ltac:(simpl; rewrite Hseed; exact Hb) Hl Hent Hcs) as H2.
  destruct (write_job (mkWJob b h vb tb ob tyb) c1) as [c2 t2] eqn:Hw2. simpl in H2.
  destruct H2 as (Ht2 & Hnone & _ & Hlogs & _ & Hseed2).
  split; [exact Hthr|]. split; [exact Ht2|].
  unfold has. rewrite Hseed2, Hseed, Ha, Hb. unfold map_has. rewrite Hnone.
  split; [reflexivity|]. split; [reflexivity|].
  rewrite Hlogs. apply in_or_app. right. left. reflexivity.
Qed.

(** C9 (confirmed).  [write(k, v)] with [v] a function, [undefined] or a
    symbol fails with [NonCachableValue] in its synchronous part, before
    its first [await] (an async function turns the throw into the
    rejection of its promise): the cache, the write queue and the pending
    continuations are unchanged. *)
Theorem non_cachable_rejected_before_queue (w : world) (pid : nat) (key : string)
  (v : jsval) (exp : ttl) (obf : bool) :
  seed (cs w) <> 0%Z ->
  (v = JUndefined \/ (exists n, v = JFunction n) \/ (exists n, v = JSymbol n)) ->
  let w' := call_write w pid key v exp obf in
  cs w' = cs w /\ wq w' = wq w /\ tasks w' = tasks w /\
  settled w' = (settled w ++ [(pid, Error NonCachableValue)])%list.
Proof.
  intros Hseed Hv. unfold call_write, createHashKey.
  destruct (Z.eqb_spec (seed (cs w)) 0) as [|_]; [contradiction|].
  destruct Hv as [->|[[n ->]|[n ->]]]; simpl; repeat split; reflexivity.
Qed.

(** C10 (confirmed).  Reads do not look at the checksum: if [k1] and
    [k2] have the same hashed key and the job of [write(k1, v, ttl,
    false)] stores its entry, then [read(k2)] returns [v], [has(k2)] is
    true and [delete(k2)] removes the entry. *)
Theorem read_ignores_checksum (c : cache) (k1 k2 : string) (h : Z) (v : jsval) (t : ttl) :
  createHashKey (seed c) k1 = Ok h -> createHashKey (seed c) k2 = Ok h ->
  validateKeyCheckSum c h (createCheckSum k1) = true ->
  let c' := fst (write_job (mkWJob k1 h v t false (type_of v)) c) in
  read_body c' k2 = Ok v /\ has c' k2 = Ok true /\
  exists c'', delete c' k2 = Ok (true, c'').
Proof.
  intros H1 H2 Hv.
  destruct (write_job_stores (mkWJob k1 h v t false (type_of v)) c Hv) as (Hent & Hseed & _ & _ & _).
  simpl in Hent. cbv zeta.
  set (c' := fst (write_job _ c)) in *.
  unfold read_body, has, delete. rewrite Hseed, H2, Hent. simpl.
  unfold entry_at in Hent. unfold map_delete, map_has.
  destruct (map_get (data c') h); [|discriminate].
  split; [reflexivity|]. split; [reflexivity|]. eexists. reflexivity.
Qed.



End CacheClaims.

(* ------------------------------------------------------------------ *)
(** ** Divergences shown on concrete runs *)

Module RunClaims.
Import Scenarios.

(** C1 (code bug).  [read("k")] then [rotateKey()] in one turn, after an
    obfuscated [write("k", "hello")] drained.  During the rotation window
    the cache is not paused and the entry, still marked obfuscated, holds
    the decoded plaintext; the pending read runs there and rejects with
    [InvalidFormat] instead of returning "hello".  A read issued after the
    rotation returns "hello". *)
Theorem read_during_rotation_sees_plaintext :
  isPaused (cs rotation_started) = false /\
  entry_at (cs rotation_started) (hash_loop seed0 "k") =
    Some (mkEntry (JString "hello") Never true "string" (createCheckSum "k")) /\
  outcome (settled rotation_done) 2 = Some (Error InvalidFormat) /\
  outcome (settled read_after_rotation) 3 = Some (Ok (JString "hello")).
Proof. vm_compute. repeat split; reflexivity. Qed.

(** C3 (code bug).  A bigint does not round-trip: the [bigint] case of
    [toType] has no [break] and falls through to the [boolean] case, so
    [write("k", 5n, "never", true)] then [read("k")] yields [false], and
    so does [decode(encode(5n))]. *)
Theorem bigint_round_trip_yields_false :
  outcome (settled bigint_read) 2 = Some (Ok (JBoolean false)) /\
  decode (randomBytes 0) (fst (encode (randomBytes 0) 1 (JBigInt 5))) = Ok (JBoolean false).
Proof. vm_compute. split; reflexivity. Qed.

(** C6 (code bug).  Setting the rotation period to 200 days right after
    [new Obfuscator()] does not cancel the 90-day rotation: the setter
    passes the stored clear function to [clearTimeout], which ignores it.
    After 100 days one rotation has happened, at day 90, and after 201
    days a second one, at day 200. *)
Theorem old_rotation_timer_still_fires :
  Rotation.rotations period_changed_100_days = [(90 * Rotation.day)%Z] /\
  Rotation.rotations
    (Rotation.advance 100 (201 * Rotation.day)%Z
       (Rotation.set_defaultKeyRotationDuration Rotation.create (200 * Rotation.day)%Z))
  = [(90 * Rotation.day)%Z; (200 * Rotation.day)%Z].
Proof. vm_compute. split; reflexivity. Qed.

End RunClaims.

(* ------------------------------------------------------------------ *)
(** ** Witnesses: the theorems applied at concrete inputs *)

Module Witnesses.
Import Queue DrainFacts QueueClaims DrainClaims CacheClaims Scenarios.

(** C8 witness: the queue contract on a new queue of capacity 3. *)
Lemma queue_contract_witness :
  (enqueue 7 queue3 = Error QueueFull <-> size queue3 = capacity queue3) /\
  (size queue3 <> capacity queue3 ->
     exists queue3', enqueue 7 queue3 = Ok queue3' /\ wf queue3' /\
       contents queue3' = (contents queue3 ++ [Some 7])%list /\
       size queue3' = size queue3 + 1 /\ capacity queue3' = capacity queue3) /\
  (dequeue queue3 = Error QueueEmpty <-> size queue3 = 0) /\
  (peek queue3 = Error QueueEmpty <-> size queue3 = 0) /\
  (size queue3 <> 0 ->
     exists y queue3', dequeue queue3 = Ok (Some y, queue3') /\ peek queue3 = Ok (Some y) /\ wf queue3' /\
       contents queue3 = Some y :: contents queue3' /\
       size queue3' = size queue3 - 1 /\ capacity queue3' = capacity queue3) /\
  (forall (C : nat) (xs : list nat) (z : nat), length xs = C ->
     exists queue3', enqueue_all xs (create C) = Ok queue3' /\
       contents queue3' = map Some xs /\ enqueue z queue3' = Error QueueFull).
Proof.
  apply (queue_bounded_fifo_contract queue3 7).
  vm_compute. repeat split; try lia; repeat constructor.
Defined.

(** C2 witness: the loop suspended on A with B and C queued; B throws,
    and the next [enqueue] of A runs C and then A. *)
Lemma drain_resume_witness :
  let '(p1, log1) := ProcessQueue.drain job_runner 10 (ProcessQueue.AfterItem jobA) stalled_loop [Ran 1] in
  ProcessQueue.isExecuting p1 = false /\
  log1 = ([Ran 1] ++ ran ([] ++ [jobB]) ++ [Caught (JobFailed (jid jobB))])%list /\
  contents (ProcessQueue.queue p1) = map Some [jobC] /\
  exists p2 log2 k,
    ProcessQueue.enqueue job_runner jobA p1 log1 = Ok (p2, log2, Some k) /\
    let '(p3, log3) := ProcessQueue.drain job_runner 10 k p2 log2 in
    ProcessQueue.isExecuting p3 = false /\ log3 = (log1 ++ ran ([jobC] ++ [jobA]))%list /\
    contents (ProcessQueue.queue p3) = [].
Proof.
  apply (drain_stops_at_throw_next_enqueue_resumes stalled_loop [Ran 1] jobA [] jobB [jobC] jobA 10).
  - vm_compute. repeat split; try lia; repeat constructor; eexists; reflexivity.
  - reflexivity.
  - vm_compute. reflexivity.
  - reflexivity.
  - constructor.
  - reflexivity.
  - repeat constructor.
  - simpl. lia.
Defined.

(** C4 witness: the job of [write(B, "B")] on the cache holding A's entry. *)
Lemma collision_job_witness :
  let '(c', threw) := write_job job_keyB (cs after_keyA) in
  threw = false /\ map_get (data c') (j_hKey job_keyB) = None /\ heap c' = heap (cs after_keyA) /\
  logs c' = (logs (cs after_keyA) ++ [Warn collision_warning])%list /\
  (forall h, h <> j_hKey job_keyB -> map_get (data c') h = map_get (data (cs after_keyA)) h).
Proof.
  apply (collision_job_deletes_and_drops (cs after_keyA) job_keyB 0 entry_keyA).
  - vm_compute. reflexivity.
  - vm_compute. reflexivity.
  - vm_compute. reflexivity.
  - vm_compute. intros H. discriminate H.
Defined.

(** C5 witness: keys ["a b"] and ["ab"] on a new cache, A's expiration
    above [maxTotalDelay]. *)
Lemma collision_bucket_witness :
  let '(c1, t1) := write_job (mkWJob keyA hashAB (JString "A") (After 2000000000000) false "string") (cs (new_cache seed0)) in
  let '(c2, t2) := write_job (mkWJob keyB hashAB (JString "B") Never false "string") c1 in
  t1 = ttl_too_long (After 2000000000000) /\ t2 = false /\ has c2 keyA = Ok false /\ has c2 keyB = Ok false /\
  In (Warn collision_warning) (logs c2).
Proof.
  apply (collision_leaves_bucket_empty (cs (new_cache seed0)) keyA keyB hashAB
           (JString "A") (JString "B") (After 2000000000000) Never false false "string" "string").
  - vm_compute. reflexivity.
  - vm_compute. reflexivity.
  - unfold keyA, keyB. intros H. discriminate H.
  - vm_compute. reflexivity.
Defined.

(** C9 witness: [write("k", function)] on a new cache. *)
Lemma non_cachable_witness :
  cs (call_write (new_cache seed0) 1 "k" (JFunction 0) Never false) = cs (new_cache seed0) /\
  wq (call_write (new_cache seed0) 1 "k" (JFunction 0) Never false) = wq (new_cache seed0) /\
  tasks (call_write (new_cache seed0) 1 "k" (JFunction 0) Never false) = tasks (new_cache seed0) /\
  settled (call_write (new_cache seed0) 1 "k" (JFunction 0) Never false) =
    (settled (new_cache seed0) ++ [(1, Error NonCachableValue)])%list.
Proof.
  apply (non_cachable_rejected_before_queue (new_cache seed0) 1 "k" (JFunction 0) Never false).
  - vm_compute. intros H. discriminate H.
  - right. left. exists 0. reflexivity.
Defined.

(** C10 witness: [write("a b", "A", "never", false)], then reads of ["ab"]. *)
Lemma read_ignores_checksum_witness :
  read_body (fst (write_job (mkWJob keyA hashAB (JString "A") Never false (type_of (JString "A"))) (cs (new_cache seed0)))) keyB = Ok (JString "A") /\
  has (fst (write_job (mkWJob keyA hashAB (JString "A") Never false (type_of (JString "A"))) (cs (new_cache seed0)))) keyB = Ok true /\
  exists c'', delete (fst (write_job (mkWJob keyA hashAB (JString "A") Never false (type_of (JString "A"))) (cs (new_cache seed0)))) keyB = Ok (true, c'').
Proof.
  apply (read_ignores_checksum (cs (new_cache seed0)) keyA keyB hashAB (JString "A") Never).
  - vm_compute. reflexivity.
  - vm_compute. reflexivity.
  - vm_compute. reflexivity.
Defined.


End Witnesses.

(* ------------------------------------------------------------------ *)
(** ** Further properties of the code *)

Module ObfuscatorFacts.

Lemma hex_pair (c : ascii) (R : string) :
  from_hex (String (hex_digit (nat_of_ascii c / 16)) (String (hex_digit (nat_of_ascii c mod 16)) R))
  = String c (from_hex R).
Proof. destruct c as [[] [] [] [] [] [] [] []]; reflexivity. Qed.

Lemma from_to_hex (s : string) : from_hex (to_hex s) = s.
Proof.
  induction s as [|c r IH]; [reflexivity|].
  change (to_hex (String c r)) with
    (String (hex_digit (nat_of_ascii c / 16)) (String (hex_digit (nat_of_ascii c mod 16)) (to_hex r))).
  rewrite hex_pair, IH. reflexivity.
Qed.

Lemma hex_no_colon (c : ascii) :
  Ascii.eqb (hex_digit (nat_of_ascii c / 16)) ":" = false /\
  Ascii.eqb (hex_digit (nat_of_ascii c mod 16)) ":" = false.
Proof. destruct c as [[] [] [] [] [] [] [] []]; split; reflexivity. Qed.

Lemma to_hex_no_colon (s : string) : has_colon (to_hex s) = false.
Proof.
  induction s as [|c r IH]; [reflexivity|].
  change (to_hex (String c r)) with
    (String (hex_digit (nat_of_ascii c / 16)) (String (hex_digit (nat_of_ascii c mod 16)) (to_hex r))).
  destruct (hex_no_colon c) as [H1 H2]. cbn [has_colon]. rewrite H1, H2, IH. reflexivity.
Qed.

Lemma append_empty_r (s : string) : (s ++ "")%string = s.
Proof. induction s as [|c r IH]; [reflexivity|]. exact (f_equal (String c) IH). Qed.

Lemma append_cons (c : ascii) (r s : string) : (String c r ++ s)%string = String c (r ++ s).
Proof. reflexivity. Qed.

Lemma append_nil_l (s : string) : ("" ++ s)%string = s.
Proof. reflexivity. Qed.

Lemma append_assoc (a b c : string) : (a ++ (b ++ c))%string = ((a ++ b) ++ c)%string.
Proof. induction a as [|x r IH]; [reflexivity|]. exact (f_equal (String x) IH). Qed.

Lemma split_aux_sep (s rest cur : string) :
  has_colon s = false ->
  split_colon_aux (s ++ ":" ++ rest) cur = (cur ++ s)%string :: split_colon_aux rest "".
Proof.
  change (":" ++ rest)%string with (String ":" rest).
  revert cur. induction s as [|c r IH]; intros cur H.
  - rewrite append_nil_l, append_empty_r. reflexivity.
  - simpl in H. apply orb_false_iff in H as [Hc Hr]. rewrite append_cons. simpl. rewrite Hc.
    rewrite (IH _ Hr). rewrite <- append_assoc. reflexivity.
Qed.

Lemma split_aux_end (s cur : string) :
  has_colon s = false -> split_colon_aux s cur = [(cur ++ s)%string].
Proof.
  revert cur. induction s as [|c r IH]; intros cur H.
  - simpl. rewrite append_empty_r. reflexivity.
  - simpl in H. apply orb_false_iff in H as [Hc Hr]. simpl. rewrite Hc.
    rewrite (IH _ Hr). rewrite <- append_assoc. reflexivity.
Qed.

Lemma strip_prefix_app (p s : string) : strip_prefix p (p ++ s) = Some s.
Proof.
  induction p as [|c r IH]; [reflexivity|]. rewrite append_cons. simpl. rewrite Ascii.eqb_refl. exact IH.
Qed.

Lemma z_roundtrip (z : Z) : z_of_string (z_to_string z) = Some z.
Proof.
  unfold z_of_string, z_to_string.
  assert (H : forall d, option_map Z.of_int (NilZero.int_of_string (NilZero.string_of_int d))
                        = Some (Z.of_int d)).
  { intros [[]|[]]; try reflexivity;
      rewrite NilZero.isi by discriminate; reflexivity. }
  rewrite H. rewrite DecimalZ.of_to. reflexivity.
Qed.

Lemma toType_roundtrip (v : jsval) :
  roundtrips v = true ->
  exists s, converttostring v = Ok (JString s, type_of v) /\ toType s (type_of v) = Ok v.
Proof.
  destruct v as [s|[z|]|b|z|j|j|b0 n0| | | |]; simpl; try discriminate; intros H.
  - eexists. split; [reflexivity|]. reflexivity.
  - eexists. split; [reflexivity|]. unfold toType, Number. simpl.
    rewrite z_roundtrip. reflexivity.
  - eexists. split; [reflexivity|]. reflexivity.
  - eexists. split; [reflexivity|]. destruct b; reflexivity.
  - destruct j as [|c r]; [discriminate|]. apply Ascii.eqb_eq in H. subst c.
    eexists. split; [reflexivity|]. reflexivity.
  - destruct j as [|c r]; [discriminate|]. apply Ascii.eqb_eq in H. subst c.
    eexists. split; [reflexivity|]. reflexivity.
  - eexists. split; [reflexivity|]. reflexivity.
Qed.

Lemma type_no_colon (v : jsval) : has_colon (type_of v) = false.
Proof. destruct v as [| | | | | |[]| | | |]; reflexivity. Qed.

Lemma decode_encode (k : string) (r : nat) (v : jsval) :
  roundtrips v = true -> decode k (fst (encode k r v)) = Ok v.
Proof.
  intros H. destruct (toType_roundtrip v H) as (s & Hs & Ht).
  unfold encode. rewrite Hs. cbn [fst]. unfold decode, split_colon, cipher_encrypt.
  rewrite (split_aux_sep _ _ _ (to_hex_no_colon _)).
  rewrite (split_aux_sep _ _ _ (to_hex_no_colon _)).
  rewrite (split_aux_end _ _ (type_no_colon v)). rewrite !append_nil_l.
  unfold cipher_decrypt. rewrite from_to_hex. rewrite append_assoc, strip_prefix_app.
  exact Ht.
Qed.

End ObfuscatorFacts.


Module WriteFacts.
Import MapFacts CacheFacts.

(** A write job whose checksum check passes, field by field. *)
Lemma write_job_ok_shape (j : wjob) (c : cache) :
  validateKeyCheckSum c (j_hKey j) (createCheckSum (j_key j)) = true ->
  let c' := fst (write_job j c) in
  data c' = map_set (data c) (j_hKey j) (next_obj c) /\
  heap c' = <[next_obj c := mkEntry (j_value j) (j_expiration j) (j_obfuscate j) (j_type j)
                             (createCheckSum (j_key j))]> (heap c) /\
  logs c' = logs c /\ seed c' = seed c /\ charm c' = charm c /\
  timers c' = (timers c ++ match j_expiration j with
                           | Never => []
                           | After ms => if (ms >? maxTotalDelay)%Z then [] else [j_hKey j]
                           end)%list.
Proof.
  intros Hv. unfold write_job, write_job_run. rewrite Hv.
  destruct (j_expiration j) as [|ms]; simpl; [|destruct (ms >? maxTotalDelay)%Z]; simpl;
    repeat split; try reflexivity; rewrite app_nil_r; reflexivity.
Qed.

Lemma map_set_keys (m : jsmap) k l : map_has m k = true -> map fst (map_set m k l) = map fst m.
Proof.
  intros H. unfold map_set. rewrite H. rewrite map_map.
  apply map_ext. intros [k' l']. simpl. destruct (Z.eqb_spec k' k) as [->|]; reflexivity.
Qed.

End WriteFacts.

Module CacheProps.
Import MapFacts CacheFacts ObfuscatorFacts HeapFacts WriteFacts.

(** Obfuscator round trip: under one key, [decode(encode(v))] gives [v]
    back for strings, numbers, booleans, [null], and objects and arrays
    (given by their JSON text). *)
Theorem obfuscator_decode_encode (k : string) (r : nat) (v : jsval) :
  roundtrips v = true -> decode k (fst (encode k r v)) = Ok v.
Proof. apply decode_encode. Qed.

(** Write then read: when the queued job of [write(key, v, exp, obf)]
    stores its entry (no colliding key in the bucket), [read(key)] gives
    [v] back; for [obf = true] this holds for the values that survive
    [encode]/[decode]. *)
Theorem write_then_read_roundtrip (c : cache) (key : string) (hk : Z) (v : jsval) (exp : ttl) (obf : bool) :
  createHashKey (seed c) key = Ok hk ->
  (obf = true -> roundtrips v = true) ->
  validateKeyCheckSum c hk (createCheckSum key) = true ->
  read_body (fst (write_job (fst (prepare_write c key hk v exp obf (type_of v)))
                            (snd (prepare_write c key hk v exp obf (type_of v))))) key = Ok v.
Proof.
  intros Hh Hr Hv. unfold prepare_write. destruct obf.
  - destruct (encode (charm c) (rng c) v) as [val r] eqn:Henc. cbn [fst snd].
    destruct (write_job_stores (mkWJob key hk val exp true (type_of v)) (with_key c (charm c) r)
                ltac:(exact Hv)) as (Hent & Hseed & Hcharm & _).
    unfold read_body. rewrite Hseed. change (seed (with_key c (charm c) r)) with (seed c).
    rewrite Hh. simpl in Hent. rewrite Hent. cbn [isObfusacated value].
    rewrite Hcharm. change (charm (with_key c (charm c) r)) with (charm c).
    replace val with (fst (encode (charm c) (rng c) v)) by (rewrite Henc; reflexivity).
    apply decode_encode. auto.
  - cbn [fst snd].
    destruct (write_job_stores (mkWJob key hk v exp false (type_of v)) (with_key c (charm c) (rng c))
                ltac:(exact Hv)) as (Hent & Hseed & _).
    unfold read_body. rewrite Hseed. change (seed (with_key c (charm c) (rng c))) with (seed c).
    rewrite Hh. simpl in Hent. rewrite Hent. reflexivity.
Qed.

(** Key rotation is transparent to reads when every entry is obfuscated
    (and decodes, under the old key, to a value that survives
    [encode]/[decode]): once [#handleBeforeKeyRotated], the key change and
    [#handleKeyRotated] have run, [read(key)] gives what it gave before,
    for every key, and the cache is no longer paused. *)
Theorem rotation_keeps_obfuscated_reads (c : cache) (k' : string) (r' : nat) (key : string) :
  NoDup (map snd (data c)) ->
  Forall (fun p => exists e, heap c !! snd p = Some e /\ isObfusacated e = true /\
             exists x, decode (charm c) (value e) = Ok x /\ roundtrips x = true) (data c) ->
  read_body (handleKeyRotated (with_key (handleBeforeKeyRotated c) k' r')) key = read_body c key /\
  isPaused (handleKeyRotated (with_key (handleBeforeKeyRotated c) k' r')) = false.
Proof.
  intros Hnd Hall.
  destruct (rotation_shape c k' r') as (Hdata & Hseed & Hcharm & Hpaused & _ & Hheap).
  split; [|exact Hpaused].
  unfold read_body. rewrite Hseed.
  destruct (createHashKey (seed c) key) as [hk|er]; [|reflexivity].
  unfold entry_at. rewrite Hdata.
  destruct (map_get (data c) hk) as [l|] eqn:Hl; [|reflexivity].
  apply map_get_in in Hl.
  assert (Hl' := Hl). apply in_map_iff in Hl' as ([y l0] & Hl0 & Hin). simpl in Hl0. subst l0.
  rewrite List.Forall_forall in Hall.
  destruct (Hall _ Hin) as (e & He & Hobf & x & Hx & Hrt). simpl in He.
  assert (Hall' : Forall (fun p => exists e v, heap c !! snd p = Some e /\
                                     decode (charm c) (value e) = Ok v) (data c)).
  { apply List.Forall_forall. intros p Hp. destruct (Hall p Hp) as (e2 & H2 & _ & x2 & D2 & _).
    exists e2, x2. split; assumption. }
  destruct (decode_all_ok (charm c) (heap c) (data c) Hnd Hall') as [_ Hdec].
  pose proof (Hdec l e x Hl He Hx) as Hd1.
  assert (Hsome : Forall (fun p => is_Some (fst (decode_all (charm c) (heap c) (data c)) !! snd p)) (data c)).
  { apply List.Forall_forall. intros p Hp. apply decode_all_is_some.
    destruct (Hall p Hp) as (e2 & H2 & _). rewrite H2. eexists. reflexivity. }
  destruct (encode_all_ok k' r' _ (data c) l _ Hnd Hsome Hl Hd1) as [r0 Henc].
  rewrite Hheap, Henc, He. cbn [isObfusacated value set_value].
  rewrite Hobf, Hcharm, Hx. apply decode_encode. exact Hrt.
Qed.

(** Key rotation garbles entries stored without obfuscation:
    [#handleBeforeKeyRotated] cannot decode them (its loop stops there),
    but [#handleKeyRotated] encodes every entry's value, and the flag
    [isObfusacated] stays false; afterwards [read(key)] returns the
    [iv:ciphertext:type] string made from the stored value. *)
Theorem rotation_encodes_plain_entries (c : cache) (k' : string) (r' : nat) (key : string)
  (hk : Z) (e : entry) (er : err) :
  NoDup (map snd (data c)) ->
  Forall (fun p => is_Some (heap c !! snd p)) (data c) ->
  createHashKey (seed c) key = Ok hk -> entry_at c hk = Some e -> isObfusacated e = false ->
  decode (charm c) (value e) = Error er ->
  read_body c key = Ok (value e) /\
  exists r0, read_body (handleKeyRotated (with_key (handleBeforeKeyRotated c) k' r')) key
             = Ok (fst (encode k' r0 (value e))).
Proof.
  intros Hnd Hall Hh He Hobf Hd.
  split.
  { unfold read_body. rewrite Hh, He, Hobf. reflexivity. }
  destruct (rotation_shape c k' r') as (Hdata & Hseed & Hcharm & Hpaused & _ & Hheap).
  unfold entry_at in He. destruct (map_get (data c) hk) as [l|] eqn:Hl; [|discriminate].
  pose proof (map_get_in _ _ _ Hl) as Hin.
  pose proof (decode_all_fail (charm c) (heap c) (data c) l e er Hnd Hin He Hd) as Hd1.
  assert (Hsome : Forall (fun p => is_Some (fst (decode_all (charm c) (heap c) (data c)) !! snd p)) (data c)).
  { apply List.Forall_forall. intros p Hp. apply decode_all_is_some.
    rewrite List.Forall_forall in Hall. exact (Hall p Hp). }
  destruct (encode_all_ok k' r' _ (data c) l _ Hnd Hsome Hin Hd1) as [r0 Henc].
  exists r0. unfold read_body. rewrite Hseed, Hh. unfold entry_at. rewrite Hdata, Hl.
  rewrite Hheap, Henc. cbn [isObfusacated value set_value]. rewrite Hobf. reflexivity.
Qed.

End CacheProps.

Module CacheOpsProps.
Import MapFacts CacheFacts WriteFacts.

(** White space inside a key is ignored: two keys that differ only by
    white space name the same entry for [has], [read] and [delete]. *)
Theorem keys_equal_up_to_spaces (c : cache) (k1 k2 : string) :
  strip_spaces k1 = strip_spaces k2 ->
  has c k1 = has c k2 /\ read_body c k1 = read_body c k2 /\ delete c k1 = delete c k2.
Proof.
  intros Hs. unfold has, read_body, delete, createHashKey. rewrite Hs. auto.
Qed.

(** Without a hash seed ([CACHE_HASH_KEY_INITALIZER] unset or 0), every
    keyed operation fails with [HASH_KEY_NOT_SET]: [has], [delete] and
    [read] throw it, and [write] rejects with it before its type check
    and without queueing anything. *)
Theorem unset_hash_seed_rejects_all (w : world) (pid : nat) (key : string) (v : jsval) (exp : ttl) (obf : bool) :
  seed (cs w) = 0%Z ->
  has (cs w) key = Error HashKeyNotSet /\ delete (cs w) key = Error HashKeyNotSet /\
  read_body (cs w) key = Error HashKeyNotSet /\
  call_write w pid key v exp obf = settle w pid (Error HashKeyNotSet).
Proof.
  intros H0. unfold has, delete, read_body, call_write, createHashKey. rewrite H0. simpl. auto.
Qed.

(** [delete(key)] returns whether [has(key)] held; afterwards [has(key)]
    is false and [read(key)] gives [null], and every key with another hash
    reads and tests as before. *)
Theorem delete_removes_only_its_key (c : cache) (key : string) (hk : Z) :
  createHashKey (seed c) key = Ok hk ->
  exists c', delete c key = Ok (map_has (data c) hk, c') /\
    has c key = Ok (map_has (data c) hk) /\
    has c' key = Ok false /\ read_body c' key = Ok JNull /\
    forall key2 hk2, createHashKey (seed c) key2 = Ok hk2 -> hk2 <> hk ->
      has c' key2 = has c key2 /\ read_body c' key2 = read_body c key2.
Proof.
  intros Hh. exists (with_data c (snd (map_delete (data c) hk))).
  unfold delete, has. rewrite Hh. split; [reflexivity|]. split; [reflexivity|].
  cbn [seed with_data data]. rewrite Hh.
  split; [unfold map_has; rewrite map_get_delete_eq; reflexivity|].
  split.
  { unfold read_body, entry_at. cbn [seed with_data data]. rewrite Hh, map_get_delete_eq. reflexivity. }
  intros key2 hk2 Hh2 Hne. unfold read_body, entry_at. cbn [seed with_data data heap charm].
  rewrite Hh2. unfold map_has. rewrite !map_get_delete_ne by exact Hne. auto.
Qed.

(** After [destroy()] no key is present, every read gives [null], and the
    cache is not paused, whatever its state before. *)
Theorem destroy_empties (c : cache) (key : string) :
  seed c <> 0%Z ->
  has (destroy c) key = Ok false /\ read_body (destroy c) key = Ok JNull /\
  isPaused (destroy c) = false.
Proof.
  intros Hs. unfold has, read_body, entry_at, createHashKey. cbn.
  apply Z.eqb_neq in Hs. rewrite Hs. auto.
Qed.

(** Writing a key that is already stored replaces its entry in place: the
    second job stores the new value, type and expiration, the map keeps
    its keys (and their order), no warning is logged, and the job throws
    only when its expiration is a duration above [maxTotalDelay] (from
    [#runCacheCleanup], after the entry is stored). *)
Theorem same_key_write_overwrites (c : cache) (key : string) (hk : Z)
  (v1 v2 : jsval) (e1 e2 : ttl) (o1 o2 : bool) (t1 t2 : string) :
  validateKeyCheckSum c hk (createCheckSum key) = true ->
  entry_at (fst (write_job (mkWJob key hk v2 e2 o2 t2) (fst (write_job (mkWJob key hk v1 e1 o1 t1) c)))) hk
    = Some (mkEntry v2 e2 o2 t2 (createCheckSum key)) /\
  map fst (data (fst (write_job (mkWJob key hk v2 e2 o2 t2) (fst (write_job (mkWJob key hk v1 e1 o1 t1) c)))))
    = map fst (data (fst (write_job (mkWJob key hk v1 e1 o1 t1) c))) /\
  logs (fst (write_job (mkWJob key hk v2 e2 o2 t2) (fst (write_job (mkWJob key hk v1 e1 o1 t1) c)))) = logs c /\
  snd (write_job (mkWJob key hk v2 e2 o2 t2) (fst (write_job (mkWJob key hk v1 e1 o1 t1) c))) = ttl_too_long e2.
Proof.
  intros Hv.
  set (c1 := fst (write_job (mkWJob key hk v1 e1 o1 t1) c)).
  destruct (write_job_ok_shape (mkWJob key hk v1 e1 o1 t1) c Hv) as (Hd1 & Hh1 & Hl1 & _).
  fold c1 in Hd1, Hh1, Hl1. cbn [j_hKey j_value j_expiration j_obfuscate j_type j_key] in Hd1, Hh1.
  assert (Hv2 : validateKeyCheckSum c1 hk (createCheckSum key) = true).
  { unfold validateKeyCheckSum. rewrite Hd1, map_get_set_eq, Hh1, lookup_insert_eq.
    apply String.eqb_refl. }
  destruct (write_job_ok_shape (mkWJob key hk v2 e2 o2 t2) c1 Hv2) as (Hd2 & Hh2 & Hl2 & _).
  cbn [j_hKey j_value j_expiration j_obfuscate j_type j_key] in Hd2, Hh2.
  split; [|split; [|split]].
  - unfold entry_at. rewrite Hd2, map_get_set_eq, Hh2, lookup_insert_eq. reflexivity.
  - rewrite Hd2. apply map_set_keys. unfold map_has. rewrite Hd1, map_get_set_eq. reflexivity.
  - rewrite Hl2, Hl1. reflexivity.
  - unfold write_job, write_job_run. cbn [j_key j_hKey j_expiration]. rewrite Hv2.
    destruct e2 as [|ms]; [reflexivity|]. simpl. destruct (ms >? maxTotalDelay)%Z; reflexivity.
Qed.

(** The expiry timer of a write is never cancelled: after a write with an
    expiration of at most [maxTotalDelay] and a later write of the same
    key without expiration, the first write's timer is still pending, and
    when it fires it deletes the new entry. *)
Theorem expiry_timer_outlives_rewrite (c : cache) (key : string) (hk : Z)
  (v1 v2 : jsval) (ms : Z) (o1 o2 : bool) (t1 t2 : string) :
  validateKeyCheckSum c hk (createCheckSum key) = true -> (ms <= maxTotalDelay)%Z ->
  In hk (timers (fst (write_job (mkWJob key hk v2 Never o2 t2) (fst (write_job (mkWJob key hk v1 (After ms) o1 t1) c))))) /\
  entry_at (fst (write_job (mkWJob key hk v2 Never o2 t2) (fst (write_job (mkWJob key hk v1 (After ms) o1 t1) c)))) hk
    = Some (mkEntry v2 Never o2 t2 (createCheckSum key)) /\
  entry_at (expire (fst (write_job (mkWJob key hk v2 Never o2 t2) (fst (write_job (mkWJob key hk v1 (After ms) o1 t1) c)))) hk) hk
    = None.
Proof.
  intros Hv Hms.
  set (c1 := fst (write_job (mkWJob key hk v1 (After ms) o1 t1) c)).
  destruct (write_job_ok_shape (mkWJob key hk v1 (After ms) o1 t1) c Hv) as (Hd1 & Hh1 & _ & _ & _ & Ht1).
  fold c1 in Hd1, Hh1, Ht1. cbn [j_hKey j_value j_expiration j_obfuscate j_type j_key] in Hd1, Hh1, Ht1.
  assert (Hv2 : validateKeyCheckSum c1 hk (createCheckSum key) = true).
  { unfold validateKeyCheckSum. rewrite Hd1, map_get_set_eq, Hh1, lookup_insert_eq.
    apply String.eqb_refl. }
  destruct (write_job_ok_shape (mkWJob key hk v2 Never o2 t2) c1 Hv2) as (Hd2 & Hh2 & _ & _ & _ & Ht2).
  cbn [j_hKey j_value j_expiration j_obfuscate j_type j_key] in Hd2, Hh2, Ht2.
  split; [|split].
  - assert (Hgt : (ms >? maxTotalDelay)%Z = false) by (rewrite Z.gtb_ltb; apply Z.ltb_ge; exact Hms).
    rewrite Ht2, Ht1, Hgt, !app_nil_r. apply in_or_app. right. left. reflexivity.
  - unfold entry_at. rewrite Hd2, map_get_set_eq, Hh2, lookup_insert_eq. reflexivity.
  - unfold entry_at, expire. cbn [data with_data]. rewrite map_get_delete_eq. reflexivity.
Qed.

End CacheOpsProps.

Module TimerFacts.
Import Rotation.

Lemma advance_idle (fuel : nat) (t : Z) (s : state) :
  pending s = [] -> rotations (advance fuel t s) = rotations s.
Proof.
  destruct fuel as [|f]; intros Hp; simpl; [reflexivity|]. rewrite Hp. reflexivity.
Qed.

(** A single pending link of a [setUnboundedTimeout] chain whose callback
    is due at [T] calls it once, at [T], given enough timer firings. *)
Lemma chain_fires (fuel : nat) : forall s id due a T t,
  pending s = [(id, due, a)] ->
  (a = ARotate /\ due = T \/ exists r, a = AChain r /\ T = (due + r)%Z /\ (0 < r <= maxTotalDelay)%Z) ->
  (T - due <= (Z.of_nat fuel - 1) * maxDelay)%Z ->
  rotations (advance fuel t s) = (rotations s ++ (if (T <=? t)%Z then [T] else []))%list.
Proof.
  induction fuel as [|f IH]; intros s id due a T t Hp Ha Hf.
  - exfalso. unfold maxDelay in Hf. destruct Ha as [[_ ->]|(r & _ & -> & Hr)]; lia.
  - simpl. rewrite Hp. simpl. destruct (Z.leb_spec due t) as [Hdt|Hdt].
    + unfold fire. simpl. rewrite Hp. simpl. rewrite Nat.eqb_refl. simpl.
      destruct Ha as [[-> <-]|(r & -> & -> & Hr)].
      * rewrite advance_idle by reflexivity. simpl.
        destruct (Z.leb_spec due t); [reflexivity|lia].
      * unfold setUnboundedTimeout. simpl.
        destruct (Z.gtb_spec r maxTotalDelay) as [|_]; [lia|].
        destruct (Z.gtb_spec r maxDelay) as [Hbig|Hsmall]; simpl.
        -- rewrite (IH _ (next_id s) (due + maxDelay)%Z (AChain (r - maxDelay)) (due + r)%Z t);
             [reflexivity|reflexivity| |].
           ++ right. exists (r - maxDelay)%Z. unfold maxTotalDelay, maxDelay in *. split; [reflexivity|lia].
           ++ unfold maxDelay in *. lia.
        -- rewrite (IH _ (next_id s) (due + r)%Z ARotate (due + r)%Z t);
             [reflexivity|reflexivity|left; split; reflexivity|].
           unfold maxDelay in *. nia.
    + assert (Hle : (due <= T)%Z) by (destruct Ha as [[_ ->]|(r & _ & -> & Hr)]; lia).
      destruct (Z.leb_spec T t); [lia|]. rewrite app_nil_r. reflexivity.
Qed.

End TimerFacts.

Module TimerProps.
Import Rotation TimerFacts.

(** [setUnboundedTimeout(callback, delay)] with [1 <= delay <= 1e12] on
    an idle timer queue does not throw, and it calls the callback exactly
    once, [delay] milliseconds later, however many [setTimeout] links of
    at most [2147483647] ms it needs on the way. *)
Theorem unbounded_timeout_fires_once (s : state) (delay t : Z) (fuel : nat) :
  pending s = [] -> (1 <= delay <= maxTotalDelay)%Z ->
  (delay <= Z.of_nat fuel * maxDelay)%Z ->
  exists s' h, setUnboundedTimeout s delay = Ok (s', h) /\
    rotations (advance fuel t s') =
      (rotations s ++ (if (now s + delay <=? t)%Z then [(now s + delay)%Z] else []))%list.
Proof.
  intros Hp Hd Hf. unfold setUnboundedTimeout.
  destruct (Z.gtb_spec delay maxTotalDelay) as [|_]; [lia|].
  destruct (Z.gtb_spec delay maxDelay) as [Hbig|Hsmall]; simpl; do 2 eexists; split; try reflexivity.
  - rewrite (chain_fires fuel _ (next_id s) (now s + maxDelay)%Z (AChain (delay - maxDelay))
               (now s + delay)%Z t); simpl; [reflexivity|rewrite Hp; reflexivity| |].
    + right. exists (delay - maxDelay)%Z. unfold maxTotalDelay, maxDelay in *. split; [reflexivity|lia].
    + unfold maxDelay in *. lia.
  - rewrite (chain_fires fuel _ (next_id s) (now s + delay)%Z ARotate (now s + delay)%Z t);
      simpl; [reflexivity|rewrite Hp; reflexivity|left; split; reflexivity|].
    unfold maxDelay in *. nia.
Qed.

(** A new [Obfuscator] rotates its key once, 90 days after it was made,
    and never again: [rotateKey] does not start a new timer. *)
Theorem obfuscator_rotates_once (t : Z) (fuel : nat) :
  (4 <= fuel)%nat ->
  rotations (advance fuel t create) = (if (90 * day <=? t)%Z then [(90 * day)%Z] else []).
Proof.
  intros Hf.
  rewrite (chain_fires fuel create 0 maxDelay (AChain (90 * day - maxDelay)) (90 * day)%Z t);
    [reflexivity|reflexivity| |].
  - right. exists (90 * day - maxDelay)%Z. unfold day, maxDelay, maxTotalDelay. split; [reflexivity|lia].
  - unfold day, maxDelay. lia.
Qed.

End TimerProps.

Module QueueProps.
Import QueueFacts DrainFacts.

Section Props.
Context {St J : Type} (r : ProcessQueue.runner St J).


End Props.
End QueueProps.

Module DrainProps.
Import QueueFacts DrainFacts.

(** When the job a drain loop is suspended on and every queued job
    complete (no synchronous throw, no rejection, in the job's function
    or its callback), the loop runs every queued job once, oldest first,
    and stops with an empty queue and [isExecuting] false. *)
Theorem drain_runs_all_in_order (p : ProcessQueue.t job) (log : list jevent) (j0 : job)
  (js : list job) (fuel : nat) :
  Queue.wf (ProcessQueue.queue p) -> Queue.contents (ProcessQueue.queue p) = map Some js ->
  job_fails j0 = false -> Forall (fun j => job_fails j = false) js -> 2 * length js + 2 < fuel ->
  exists p', ProcessQueue.drain job_runner fuel (ProcessQueue.AfterItem j0) p log = (p', (log ++ ran js)%list) /\
    ProcessQueue.isExecuting p' = false /\ Queue.contents (ProcessQueue.queue p') = [].
Proof.
  intros Hwf Hc Hj0 Hok Hf.
  destruct fuel as [|[|f]]; [lia|lia|].
  destruct (drain_after_ok j0 f p log Hj0) as (f1 & Hf1 & Hd0). rewrite Hd0.
  destruct (drain_top_app js f1 (ProcessQueue.queue p) log [] Hwf
              ltac:(rewrite app_nil_r; exact Hc) Hok ltac:(lia))
    as (q' & f' & _ & Hc' & _ & _ & _ & Hd).
  rewrite Hd, (drain_top_empty job_runner q' _ f' Hc').
  eexists. split; [reflexivity|]. split; [reflexivity|exact Hc'].
Qed.

End DrainProps.

Module EmitterFacts.
Import Emitter.

Section Facts.
Context {St : Type}.

Lemma own_set_own_eq (t : table St) ev hs hs0 :
  own t ev = Some hs0 -> own (set_own t ev hs) ev = Some hs.
Proof.
  induction t as [|[k v] r IH]; simpl; [discriminate|].
  destruct (String.eqb_spec k ev) as [->|Hne]; simpl.
  - rewrite String.eqb_refl. reflexivity.
  - intros H. destruct (String.eqb_spec k ev); [contradiction|]. auto.
Qed.

Lemma own_set_own_ne (t : table St) ev ev2 hs :
  ev2 <> ev -> own (set_own t ev hs) ev2 = own t ev2.
Proof.
  intros Hne. induction t as [|[k v] r IH]; simpl; [reflexivity|].
  destruct (String.eqb_spec k ev) as [->|Hk]; simpl.
  - destruct (String.eqb_spec ev ev2); [congruence|]. exact IH.
  - destruct (String.eqb k ev2); [reflexivity|exact IH].
Qed.

Lemma own_app_new (t : table St) ev ev2 hs :
  own t ev = None ->
  own (t ++ [(ev, hs)])%list ev2 = if String.eqb ev ev2 then Some hs else own t ev2.
Proof.
  induction t as [|[k v] r IH]; simpl; intros H.
  - destruct (String.eqb ev ev2); reflexivity.
  - destruct (String.eqb_spec k ev); [discriminate|].
    destruct (String.eqb_spec k ev2) as [->|]; [|auto].
    destruct (String.eqb_spec ev ev2); [congruence|reflexivity].
Qed.

Lemma call_listeners_ok (ls : list (St -> St * bool)) (s : St) :
  Forall (fun l => forall s, snd (l s) = false) ls -> snd (call_listeners ls s) = false.
Proof.
  revert s. induction ls as [|l r IH]; intros s Hall; simpl; [reflexivity|].
  inversion Hall as [|? ? Hl Hr]; subst.
  specialize (Hl s). destruct (l s) as [s' []]; simpl in Hl; [discriminate|]. auto.
Qed.

End Facts.
End EmitterFacts.

Module EmitterProps.
Import Emitter EmitterFacts.

(** [before(event, h)] (and [after]) throws a TypeError exactly when the
    event name is inherited from [Object.prototype] (such as
    ["constructor"]) and not yet an own property; otherwise it appends [h]
    to the event's handlers, after those registered earlier, and leaves
    every other event's handlers as they were. *)
Theorem register_then_get {St : Type} (t : table St) (ev : string) (h : handler St) :
  (register t ev h = Error TypeError <-> own t ev = None /\ inherited ev = true) /\
  (forall t', register t ev h = Ok t' ->
     get t' ev = PList ((match own t ev with Some hs => hs | None => [] end) ++ [h])%list /\
     forall ev2, ev2 <> ev -> get t' ev2 = get t ev2).
Proof.
  unfold register. split.
  - destruct (own t ev) eqn:Ho.
    + split; [discriminate|intros [H _]; discriminate].
    + destruct (inherited ev); split; try discriminate; auto. intros [_ H]; discriminate.
  - intros t' Hr. destruct (own t ev) as [hs0|] eqn:Ho.
    + injection Hr as <-. unfold get. rewrite (own_set_own_eq t ev _ hs0 Ho). split; [reflexivity|].
      intros ev2 Hne. rewrite own_set_own_ne by exact Hne. reflexivity.
    + destruct (inherited ev) eqn:Hi; [discriminate|]. injection Hr as <-.
      unfold get. rewrite (own_app_new t ev ev [h] Ho), String.eqb_refl. split; [reflexivity|].
      intros ev2 Hne. rewrite (own_app_new t ev ev2 [h] Ho).
      destruct (String.eqb_spec ev ev2); [congruence|reflexivity].
Qed.

(** Errors thrown by before-handlers, by the callback and by
    after-handlers never reject [emitter]: they are logged and the run
    goes on.  The promise is resolved whenever the event name is not
    inherited from [Object.prototype] and the listeners do not throw
    (for ["error"], when it has a listener). *)
Theorem emitter_contains_handler_errors {St : Type} (before after : table St)
  (ls : list (St -> St * bool)) (ev : string) (callback : option (St -> St * bool)) (s : St) :
  inherited ev = false ->
  Forall (fun l => forall s, snd (l s) = false) ls ->
  (ev <> "error" \/ ls <> []) ->
  snd (emitter before after ls ev callback s) = None.
Proof.
  intros Hi Hls Hev. unfold emitter.
  assert (Hb : get before ev <> PInherited).
  { unfold get. destruct (own before ev); [discriminate|]. rewrite Hi. discriminate. }
  assert (Ha : get after ev <> PInherited).
  { unfold get. destruct (own after ev); [discriminate|]. rewrite Hi. discriminate. }
  assert (He : forall s0, snd (emit ev ls s0) = None).
  { intros s0. unfold emit.
    assert (Hg : (String.eqb ev "error" && Nat.eqb (length ls) 0)%bool = false).
    { destruct (String.eqb_spec ev "error") as [->|]; [|reflexivity].
      destruct ls as [|l r]; [destruct Hev as [H|H]; congruence|reflexivity]. }
    rewrite Hg. pose proof (call_listeners_ok ls s0 Hls) as Hc.
    destruct (call_listeners ls s0) as [s1 []]; simpl in Hc; [discriminate|reflexivity]. }
  destruct (get before ev) as [hs| |] eqn:Hgb; [|contradiction|].
  - destruct (run_handlers BeforeError ev hs s []) as [s1 log1].
    destruct callback as [cb|].
    + destruct (cb s1) as [s' threw]. specialize (He s').
      destruct (emit ev ls s') as [s'' f]. simpl in He. subst f.
      destruct (get after ev) as [hs'| |]; [|contradiction|reflexivity].
      destruct (run_handlers AfterError ev hs' s'' _); reflexivity.
    + destruct (get after ev) as [hs'| |]; [|contradiction|reflexivity].
      destruct (run_handlers AfterError ev hs' s1 log1); reflexivity.
  - destruct callback as [cb|].
    + destruct (cb s) as [s' threw]. specialize (He s').
      destruct (emit ev ls s') as [s'' f]. simpl in He. subst f.
      destruct (get after ev) as [hs'| |]; [|contradiction|reflexivity].
      destruct (run_handlers AfterError ev hs' s'' _); reflexivity.
    + destruct (get after ev) as [hs'| |]; [|contradiction|reflexivity].
      destruct (run_handlers AfterError ev hs' s []); reflexivity.
Qed.

End EmitterProps.

Module MimeFacts.
Import Mime ObfuscatorFacts.

Lemma last_aux_app (s1 s2 : string) (i f : Z) :
  lastIndexOf_dot_aux (s1 ++ s2) i f =
  lastIndexOf_dot_aux s2 (i + Z.of_nat (String.length s1))%Z (lastIndexOf_dot_aux s1 i f).
Proof.
  revert i f. induction s1 as [|c r IH]; intros i f.
  - rewrite append_nil_l. simpl. rewrite Z.add_0_r. reflexivity.
  - rewrite append_cons. simpl. rewrite IH. f_equal. lia.
Qed.

Lemma last_aux_nodot (s : string) (i f : Z) : has_dot s = false -> lastIndexOf_dot_aux s i f = f.
Proof.
  revert i f. induction s as [|c r IH]; intros i f H; [reflexivity|].
  simpl in H. apply orb_false_iff in H as [Hc Hr]. simpl. rewrite Hc. auto.
Qed.

Lemma length_app (a b : string) : String.length (a ++ b) = String.length a + String.length b.
Proof. induction a as [|c r IH]; [reflexivity|]. rewrite append_cons. simpl. rewrite IH. reflexivity. Qed.

Lemma substring_all (s : string) : String.substring 0 (String.length s) s = s.
Proof. induction s as [|c r IH]; [reflexivity|]. simpl. rewrite IH. reflexivity. Qed.

Lemma substring_after (pre rest : string) :
  String.substring (String.length pre) (String.length (pre ++ rest) - String.length pre) (pre ++ rest) = rest.
Proof.
  rewrite length_app, Nat.add_comm, Nat.add_sub.
  induction pre as [|c r IH]; [apply substring_all|]. rewrite append_cons. exact IH.
Qed.

Lemma lookup_dotted (t : list (string * string)) (s : string) :
  Forall (fun p => exists r, fst p = String "." r) t -> has_dot s = false -> lookup_str t s = None.
Proof.
  intros Hall Hs. induction Hall as [|[k v] t' [r Hk] _ IH]; [reflexivity|].
  simpl in *. subst k. destruct (String.eqb_spec (String "." r) s) as [<-|]; [|exact IH].
  simpl in Hs. discriminate Hs.
Qed.

Lemma mimeTypes_dotted : Forall (fun p => exists r, fst p = String "." r) mimeTypes.
Proof. repeat constructor; eexists; reflexivity. Qed.

End MimeFacts.

Module MimeProps.
Import Mime MimeFacts ObfuscatorFacts.

(** [getMIMEType] looks up the extension that starts at the last dot of
    the file name (the dot included, letter case kept): it returns the
    table's MIME type for it, and ["application/octet-stream"] for an
    extension not in the table. *)
Theorem mime_of_last_extension (pre suf : string) :
  has_dot suf = false ->
  getMIMEType (pre ++ "." ++ suf) =
    MimeString (match lookup_str mimeTypes ("." ++ suf) with
                | Some m => m
                | None => "application/octet-stream"
                end).
Proof.
  intros Hs. unfold getMIMEType, lastIndexOf_dot.
  rewrite last_aux_app. change ("." ++ suf)%string with (String "." suf). simpl lastIndexOf_dot_aux.
  rewrite last_aux_nodot by exact Hs.
  unfold substring_from.
  replace (Z.to_nat (Z.max 0 (0 + Z.of_nat (String.length pre)))) with (String.length pre) by lia.
  rewrite substring_after.
  destruct (lookup_str mimeTypes (String "." suf)); reflexivity.
Qed.

(** A file name without a dot is looked up whole: the result is
    ["application/octet-stream"], except for a name inherited from
    [Object.prototype] (such as ["constructor"] or ["toString"]), for
    which [getMIMEType] returns that inherited value, not a string. *)
Theorem mime_without_dot (name : string) :
  has_dot name = false ->
  getMIMEType name = if inherited name then InheritedValue name
                     else MimeString "application/octet-stream".
Proof.
  intros Hs. unfold getMIMEType, lastIndexOf_dot.
  rewrite last_aux_nodot by exact Hs. unfold substring_from. simpl (Z.to_nat _).
  rewrite Nat.sub_0_r, substring_all, lookup_dotted by (exact mimeTypes_dotted || exact Hs).
  reflexivity.
Qed.

End MimeProps.

Module ListFacts.
Import ListUtils.

Section Dedup.
Context {A : Type} (eqb : A -> A -> bool) (Heqb : forall x y, eqb x y = true <-> x = y).

Lemma existsb_in (x : A) (l : list A) : existsb (eqb x) l = true <-> In x l.
Proof.
  rewrite existsb_exists. split.
  - intros (y & Hy & He). apply Heqb in He. subst. exact Hy.
  - intros Hx. exists x. split; [exact Hx|]. apply Heqb. reflexivity.
Qed.

Lemma NoDup_snoc (l : list A) (x : A) : List.NoDup l -> ~ In x l -> List.NoDup (l ++ [x]).
Proof.
  induction l as [|y r IH]; intros Hnd Hx; simpl.
  - constructor; [intros []|constructor].
  - inversion Hnd as [|? ? Hy Hr]; subst. constructor.
    + rewrite in_app_iff. intros [H|[H|[]]]; [contradiction|]. subst. apply Hx. left. reflexivity.
    + apply IH; [exact Hr|]. intros H. apply Hx. right. exact H.
Qed.

Lemma set_add_all_nodup (set l : list A) : List.NoDup set -> List.NoDup (set_add_all eqb set l).
Proof.
  revert set. induction l as [|x r IH]; intros set Hnd; simpl; [exact Hnd|].
  apply IH. destruct (existsb (eqb x) set) eqn:He; [exact Hnd|].
  apply NoDup_snoc; [exact Hnd|]. rewrite <- existsb_in, He. discriminate.
Qed.

Lemma set_add_all_in (set l : list A) (y : A) : In y (set_add_all eqb set l) <-> In y set \/ In y l.
Proof.
  revert set. induction l as [|x r IH]; intros set; simpl.
  - tauto.
  - rewrite IH. destruct (existsb (eqb x) set) eqn:He.
    + apply existsb_in in He. split; [tauto|]. intros [H|[->|H]]; auto.
    + rewrite in_app_iff. simpl. tauto.
Qed.

Lemma set_add_all_distinct (set l : list A) : List.NoDup (set ++ l) -> set_add_all eqb set l = (set ++ l)%list.
Proof.
  revert set. induction l as [|x r IH]; intros set Hnd; simpl.
  - rewrite app_nil_r. reflexivity.
  - assert (Hx : ~ In x set).
    { intros Hin. apply NoDup_remove_2 in Hnd. apply Hnd. apply in_app_iff. left. exact Hin. }
    destruct (existsb (eqb x) set) eqn:He; [apply existsb_in in He; contradiction|].
    rewrite IH; [rewrite <- app_assoc; reflexivity|]. rewrite <- app_assoc. exact Hnd.
Qed.

End Dedup.

Lemma filter_idem {B : Type} (f : B -> bool) (l : list B) : List.filter f (List.filter f l) = List.filter f l.
Proof.
  induction l as [|x r IH]; simpl; [reflexivity|].
  destruct (f x) eqn:Hf; simpl; [rewrite Hf, IH|]; auto.
Qed.

End ListFacts.

Module ListProps.
Import ListUtils ListFacts.

(** [removeDuplicatesFromList(list)] returns a list without repeated
    elements that holds exactly the elements of [list]; a list without
    repetitions comes back unchanged (same order). *)
Theorem remove_duplicates_spec {A : Type} (eqb : A -> A -> bool)
  (Heqb : forall x y, eqb x y = true <-> x = y) (l : list A) :
  List.NoDup (removeDuplicatesFromList eqb l) /\
  (forall x, In x (removeDuplicatesFromList eqb l) <-> In x l) /\
  (List.NoDup l -> removeDuplicatesFromList eqb l = l).
Proof.
  unfold removeDuplicatesFromList. split; [|split].
  - apply set_add_all_nodup; [exact Heqb|constructor].
  - intros x. rewrite (set_add_all_in eqb Heqb). simpl. tauto.
  - intros Hnd. apply (set_add_all_distinct eqb Heqb [] l). exact Hnd.
Qed.

(** [sanitizeNull(obj, exclude)] throws a TypeError for a non-object; for
    an object it keeps, in order, exactly the entries whose key is
    excluded or whose value is not [null], [""] or [undefined] (so [0],
    [false] and [NaN] are kept), and sanitizing the result again with the
    same [exclude] changes nothing. *)
Theorem sanitizeNull_spec (es : list (string * jsval)) (exclude : list string) :
  sanitizeNull NotAnObject exclude = Error TypeError /\
  exists r, sanitizeNull (AnObject es) exclude = Ok r /\
    (forall k v, In (k, v) r <-> In (k, v) es /\ (In k exclude \/ kept_value v = true)) /\
    sanitizeNull (AnObject r) exclude = Ok r.
Proof.
  split; [reflexivity|]. eexists. split; [reflexivity|]. split.
  - intros k v. rewrite filter_In. simpl. rewrite orb_true_iff, existsb_exists.
    split.
    + intros [Hin [(k' & Hk' & He)|Hv]]; split; auto.
      left. apply String.eqb_eq in He. subst. exact Hk'.
    + intros [Hin [Hk|Hv]]; split; auto. left. exists k. split; [exact Hk|apply String.eqb_refl].
  - simpl. rewrite filter_idem. reflexivity.
Qed.

End ListProps.

Module DatesFacts.
Import Dates.

Definition wd_business (w : Z) : bool := negb (Z.eqb w 0) && negb (Z.eqb w 6).

(** [bdays], read on the weekday number alone. *)
Fixpoint bdays_w (w : Z) (k : nat) : Z :=
  match k with
  | O => 0
  | S k' => ((if wd_business w then 1 else 0) + bdays_w ((w + 1) mod 7) k')%Z
  end.

Lemma weekday_next (c : Z) : (((c + day)%Z / day + 4) mod 7 = ((c / day + 4) mod 7 + 1) mod 7)%Z.
Proof.
  replace (c + day)%Z with (c + 1 * day)%Z by lia.
  rewrite Z.div_add by (unfold day; lia).
  rewrite Zplus_mod_idemp_l. f_equal. lia.
Qed.

Lemma bdays_weekday (k : nat) : forall c, bdays c k = bdays_w ((c / day + 4) mod 7) k.
Proof.
  induction k as [|k IH]; intros c; [reflexivity|].
  simpl. rewrite IH, weekday_next. reflexivity.
Qed.

Lemma weekday_range (c : Z) : (0 <= (c / day + 4) mod 7 < 7)%Z.
Proof. apply Z.mod_pos_bound. lia. Qed.

Lemma bdays_w_week (w : Z) (k : nat) : (0 <= w < 7)%Z -> bdays_w w (7 + k) = (5 + bdays_w w k)%Z.
Proof.
  intros Hw.
  assert (H : w = 0%Z \/ w = 1%Z \/ w = 2%Z \/ w = 3%Z \/ w = 4%Z \/ w = 5%Z \/ w = 6%Z) by lia.
  destruct H as [->|[->|[->|[->|[->|[->| ->]]]]]]; simpl;
    match goal with |- context [bdays_w ?e k] => let v := eval vm_compute in e in change e with v end; lia.
Qed.

Lemma bdays_weeks (c : Z) (n : nat) : bdays c (7 * n) = (5 * Z.of_nat n)%Z.
Proof.
  rewrite bdays_weekday. generalize (weekday_range c). generalize ((c / day + 4) mod 7)%Z as w.
  intros w Hw. induction n as [|n IH]; [reflexivity|].
  replace (7 * S n)%nat with (7 + 7 * n)%nat by lia. rewrite bdays_w_week by exact Hw. lia.
Qed.

Lemma bdays_snoc (k : nat) : forall c, bdays c (S k) = (bdays c k + if is_business (Some (c + Z.of_nat k * day)%Z) then 1 else 0)%Z.
Proof.
  induction k as [|k IH]; intros c.
  - simpl bdays. replace (c + Z.of_nat 0 * day)%Z with c by lia.
    destruct (is_business (Some c)); reflexivity.
  - change (bdays c (S (S k))) with ((if is_business (Some c) then 1 else 0) + bdays (c + day)%Z (S k))%Z.
    rewrite IH. simpl bdays.
    replace (c + day + Z.of_nat k * day)%Z with (c + Z.of_nat (S k) * day)%Z by lia. lia.
Qed.

(** Among three consecutive days, one is a business day. *)
Lemma three_days (c : Z) :
  is_business (Some c) = true \/ is_business (Some (c + day)%Z) = true \/
  is_business (Some (c + day + day)%Z) = true.
Proof.
  unfold is_business, getUTCDay. rewrite !weekday_next.
  generalize (weekday_range c). generalize ((c / day + 4) mod 7)%Z as w. intros w Hw.
  assert (H : w = 0%Z \/ w = 1%Z \/ w = 2%Z \/ w = 3%Z \/ w = 4%Z \/ w = 5%Z \/ w = 6%Z) by lia.
  destruct H as [->|[->|[->|[->|[->|[->| ->]]]]]]; simpl; auto.
Qed.

Lemma next_day_in (c : Z) : (- maxTime <= c)%Z -> (c + day <= maxTime)%Z -> next_day (Some c) = Some (c + day)%Z.
Proof.
  intros H1 H2. unfold next_day, TimeClip. unfold maxTime, day in *.
  destruct (Z.leb_spec (Z.abs (c + 86400000)%Z) 8640000000000000); [reflexivity|lia].
Qed.

Lemma between_spec (k : nat) : forall c fuel n,
  (k < fuel)%nat -> (- maxTime <= c)%Z -> (c + Z.of_nat k * day <= maxTime)%Z ->
  between_loop fuel (Some c) (Some (c + Z.of_nat k * day)%Z) n = Some (n + bdays c k)%Z.
Proof.
  induction k as [|k IH]; intros c fuel n Hf H1 H2.
  - destruct fuel as [|f]; [lia|]. simpl. rewrite Z.add_0_r, Z.ltb_irrefl, Z.add_0_r. reflexivity.
  - destruct fuel as [|f]; [lia|]. cbn [between_loop].
    destruct (Z.ltb_spec c (c + Z.of_nat (S k) * day)%Z) as [_|Hc]; [|unfold day in Hc; lia].
    rewrite next_day_in by (unfold day in *; lia).
    replace (c + Z.of_nat (S k) * day)%Z with (c + day + Z.of_nat k * day)%Z by lia.
    rewrite IH by (unfold day, maxTime in *; lia). simpl bdays. f_equal.
    destruct (is_business (Some c)); lia.
Qed.

(** The due-date loop passes over non-business days without counting. *)
Lemma due_loop_skip (j : nat) : forall fuel d n,
  (1 <= j)%nat -> (- maxTime <= d)%Z -> (d + Z.of_nat j * day <= maxTime)%Z -> n <> 0%Z ->
  (forall i, (1 <= i < j)%nat -> is_business (Some (d + Z.of_nat i * day)%Z) = false) ->
  is_business (Some (d + Z.of_nat j * day)%Z) = true ->
  due_loop (j + fuel) (Some d) n = due_loop fuel (Some (d + Z.of_nat j * day)%Z) (n - 1)%Z.
Proof.
  induction j as [|j IH]; intros fuel d n Hj H1 H2 Hn Hskip Hb; [lia|].
  change (S j + fuel)%nat with (S (j + fuel)). cbn [due_loop]. apply Z.eqb_neq in Hn. rewrite Hn.
  rewrite next_day_in by (unfold day in *; lia).
  destruct j as [|j'].
  - replace (d + Z.of_nat 1 * day)%Z with (d + day)%Z in * by lia.
    rewrite Hb. reflexivity.
  - assert (Hb1 : is_business (Some (d + day)%Z) = false).
    { specialize (Hskip 1%nat ltac:(lia)). replace (d + Z.of_nat 1 * day)%Z with (d + day)%Z in Hskip by lia.
      exact Hskip. }
    rewrite Hb1. apply Z.eqb_neq in Hn.
    replace (d + Z.of_nat (S (S j')) * day)%Z with (d + day + Z.of_nat (S j') * day)%Z by lia.
    apply IH; [lia|unfold day in *; lia|lia|exact Hn| |].
    + intros i Hi. replace (d + day + Z.of_nat i * day)%Z with (d + Z.of_nat (S i) * day)%Z by lia.
      apply Hskip. lia.
    + replace (d + day + Z.of_nat (S j') * day)%Z with (d + Z.of_nat (S (S j')) * day)%Z by lia. exact Hb.
Qed.

Lemma bdays_skip (j : nat) : forall d k,
  (1 <= j)%nat ->
  (forall i, (1 <= i < j)%nat -> is_business (Some (d + Z.of_nat i * day)%Z) = false) ->
  is_business (Some (d + Z.of_nat j * day)%Z) = true ->
  bdays (d + day)%Z (j + k) = (1 + bdays (d + Z.of_nat j * day + day)%Z k)%Z.
Proof.
  induction j as [|j IH]; intros d k Hj Hskip Hb; [lia|].
  destruct j as [|j'].
  - change (1 + k)%nat with (S k). cbn [bdays].
    replace (d + Z.of_nat 1 * day)%Z with (d + day)%Z in * by lia. rewrite Hb. reflexivity.
  - change (bdays (d + day)%Z (S (S j') + k)) with
      ((if is_business (Some (d + day)%Z) then 1 else 0) + bdays (d + day + day)%Z (S j' + k))%Z.
    assert (Hb1 : is_business (Some (d + day)%Z) = false).
    { specialize (Hskip 1%nat ltac:(lia)). replace (d + Z.of_nat 1 * day)%Z with (d + day)%Z in Hskip by lia.
      exact Hskip. }
    rewrite Hb1, (IH (d + day)%Z k ltac:(lia)).
    + replace (d + day + Z.of_nat (S j') * day)%Z with (d + Z.of_nat (S (S j')) * day)%Z by lia. lia.
    + intros i Hi. replace (d + day + Z.of_nat i * day)%Z with (d + Z.of_nat (S i) * day)%Z by lia.
      apply Hskip. lia.
    + replace (d + day + Z.of_nat (S j') * day)%Z with (d + Z.of_nat (S (S j')) * day)%Z by lia. exact Hb.
Qed.

Lemma next_business (d : Z) : exists j, (1 <= j <= 3)%nat /\
  (forall i, (1 <= i < j)%nat -> is_business (Some (d + Z.of_nat i * day)%Z) = false) /\
  is_business (Some (d + Z.of_nat j * day)%Z) = true.
Proof.
  assert (E : forall i, (d + Z.of_nat i * day + day)%Z = (d + Z.of_nat (S i) * day)%Z) by (intros; lia).
  destruct (is_business (Some (d + Z.of_nat 1 * day)%Z)) eqn:B1.
  { exists 1%nat. split; [lia|]. split; [intros; lia|exact B1]. }
  destruct (is_business (Some (d + Z.of_nat 2 * day)%Z)) eqn:B2.
  { exists 2%nat. split; [lia|]. split; [|exact B2]. intros i Hi. replace i with 1%nat by lia. exact B1. }
  exists 3%nat. split; [lia|]. split.
  - intros i Hi. assert (i = 1%nat \/ i = 2%nat) as [->| ->] by lia; assumption.
  - destruct (three_days (d + Z.of_nat 1 * day)%Z) as [H|[H|H]].
    + rewrite B1 in H. discriminate.
    + rewrite E, B2 in H. discriminate.
    + rewrite E, E in H. exact H.
Qed.

Lemma due_loop_spec (m : nat) : forall d fuel,
  (- maxTime <= d)%Z -> (d + Z.of_nat (3 * S m) * day <= maxTime)%Z -> (3 * S m < fuel)%nat ->
  exists k, (1 <= k <= 3 * S m)%nat /\
    due_loop fuel (Some d) (Z.of_nat (S m)) = Some (Some (d + Z.of_nat k * day)%Z) /\
    bdays (d + day)%Z k = Z.of_nat (S m) /\ is_business (Some (d + Z.of_nat k * day)%Z) = true.
Proof.
  induction m as [|m IH]; intros d fuel H1 H2 Hf;
    destruct (next_business d) as (j & Hj & Hskip & Hb);
    replace fuel with (j + (fuel - j))%nat by lia;
    rewrite (due_loop_skip j) by (lia || (unfold day in *; lia) || assumption).
  - destruct (fuel - j)%nat as [|f] eqn:Hfj; [lia|].
    exists j. split; [lia|]. split; [reflexivity|]. split; [|exact Hb].
    replace j with (j + 0)%nat by lia. rewrite (bdays_skip j d 0 ltac:(lia) Hskip Hb).
    reflexivity.
  - replace (Z.of_nat (S (S m)) - 1)%Z with (Z.of_nat (S m)) by lia.
    destruct (IH (d + Z.of_nat j * day)%Z (fuel - j)%nat) as (k & Hk & Hd & Hbd & Hbk);
      [unfold day in *; lia|unfold day in *; lia|lia|].
    exists (j + k)%nat. split; [lia|].
    replace (d + Z.of_nat (j + k) * day)%Z with (d + Z.of_nat j * day + Z.of_nat k * day)%Z by lia.
    split; [exact Hd|]. split; [|exact Hbk].
    rewrite (bdays_skip j d k ltac:(lia) Hskip Hb), Hbd. lia.
Qed.

Lemma midnight_range (t : Z) : (- maxTime <= t)%Z -> (- maxTime <= t - t mod day <= t)%Z.
Proof.
  intros H. unfold maxTime, day in *.
  pose proof (Z.mod_pos_bound t 86400000 ltac:(lia)).
  pose proof (Z.div_mod t 86400000 ltac:(lia)).
  assert (-100000000 <= t / 86400000)%Z.
  { apply Z.div_le_lower_bound; lia. }
  lia.
Qed.

Lemma setUTCHours0_valid (t : Z) :
  (- maxTime <= t <= maxTime)%Z -> setUTCHours0 (Some t) = Some (t - t mod day)%Z.
Proof.
  intros H. pose proof (midnight_range t (proj1 H)). unfold setUTCHours0, TimeClip.
  destruct (Z.leb_spec (Z.abs (t - t mod day)) maxTime); [reflexivity|lia].
Qed.

Lemma midnight_shift (t : Z) (k : Z) : ((t + k * day) - (t + k * day) mod day = (t - t mod day) + k * day)%Z.
Proof. rewrite Z_mod_plus_full. lia. Qed.

End DatesFacts.

Module DatesProps.
Import Dates DatesFacts.

(** [calcBusinessDaydueDate(start, n)] never returns for a negative
    integer [n]: the counter only goes down and never meets 0. *)
Theorem due_date_negative_never_returns (fuel : nat) (start : date) (n : Z) :
  (n < 0)%Z -> calcBusinessDaydueDate fuel start n = None.
Proof.
  unfold calcBusinessDaydueDate. generalize (setUTCHours0 start) as d. revert n.
  induction fuel as [|f IH]; intros n d Hn; [reflexivity|]. cbn [due_loop].
  destruct (Z.eqb_spec n 0) as [|_]; [lia|].
  apply IH. destruct (is_business (next_day d)); lia.
Qed.

(** For [n > 0], [calcBusinessDaydueDate(start, n)] is the UTC midnight
    of a business day after [start]; [calcBusinessDaysInBetween] from
    [start] to that due date gives [n - 1], plus one when the day of
    [start] is itself a business day (so the two functions are not
    inverse on business days), and sets the end date to that midnight. *)
Theorem due_date_then_days_between (t n : Z) (fuel : nat) :
  (- maxTime <= t)%Z -> (t + 3 * n * day <= maxTime)%Z -> (0 < n)%Z ->
  (3 * Z.to_nat n < fuel)%nat ->
  exists due, calcBusinessDaydueDate fuel (Some t) n = Some (Some due) /\
    (due mod day = 0)%Z /\ is_business (Some due) = true /\ (t < due)%Z /\
    calcBusinessDaysInBetween fuel (Some t) (Some due) =
      Some (Ok (n - 1 + if is_business (Some (t - t mod day)%Z) then 1 else 0)%Z, Some due).
Proof.
  intros H1 H2 Hn Hf.
  pose proof (midnight_range t H1) as Hmid.
  assert (Hday : (0 < day)%Z) by (unfold day; lia).
  pose proof (Z.mod_pos_bound t day Hday) as Hmod.
  pose proof (Z.div_mod t day ltac:(lia)) as Hdm.
  assert (Ht : (t <= maxTime)%Z) by (unfold day in *; nia).
  set (mid := (t - t mod day)%Z) in *.
  assert (Hm : (mid = t / day * day)%Z) by (unfold mid; lia).
  destruct (Z.to_nat n) as [|m] eqn:Hnm; [lia|].
  assert (Hn' : n = Z.of_nat (S m)) by lia. subst n.
  destruct (due_loop_spec m mid fuel) as (k & Hk & Hd & Hbd & Hbk);
    [lia|unfold day in *; lia|lia|].
  exists (mid + Z.of_nat k * day)%Z.
  unfold calcBusinessDaydueDate. rewrite setUTCHours0_valid by lia. fold mid.
  split; [exact Hd|].
  assert (Hdm0 : ((mid + Z.of_nat k * day) mod day = 0)%Z).
  { rewrite Hm, <- Z.mul_add_distr_r. apply Z.mod_mul. lia. }
  split; [exact Hdm0|]. split; [exact Hbk|].
  split; [assert (mid = t - t mod day)%Z by reflexivity; unfold day in *; nia|].
  unfold calcBusinessDaysInBetween. rewrite !setUTCHours0_valid by (unfold day in *; lia).
  fold mid. rewrite Hdm0, Z.sub_0_r.
  rewrite (between_spec k mid fuel 0) by (unfold day in *; lia).
  destruct k as [|k']; [lia|].
  rewrite bdays_snoc in Hbd.
  replace (mid + day + Z.of_nat k' * day)%Z with (mid + Z.of_nat (S k') * day)%Z in Hbd by lia.
  rewrite Hbk in Hbd. simpl bdays. destruct (is_business (Some mid)); do 3 f_equal; lia.
Qed.

(** Over whole weeks, [calcBusinessDaysInBetween] counts five business
    days a week, from any start; it sets the end date to its UTC
    midnight. *)
Theorem business_days_whole_weeks (t : Z) (w fuel : nat) :
  (- maxTime <= t)%Z -> (t + Z.of_nat (7 * w) * day <= maxTime)%Z -> (7 * w < fuel)%nat ->
  calcBusinessDaysInBetween fuel (Some t) (Some (t + Z.of_nat (7 * w) * day)%Z) =
    Some (Ok (5 * Z.of_nat w)%Z, Some (t - t mod day + Z.of_nat (7 * w) * day)%Z).
Proof.
  intros H1 H2 Hf.
  pose proof (midnight_range t H1) as Hmid.
  assert (Ht : (t <= maxTime)%Z) by (unfold day in *; lia).
  unfold calcBusinessDaysInBetween.
  rewrite !setUTCHours0_valid by (unfold day in *; lia).
  rewrite midnight_shift.
  rewrite (between_spec (7 * w) (t - t mod day) fuel 0) by (unfold day in *; lia).
  rewrite bdays_weeks. reflexivity.
Qed.

End DatesProps.

(* ------------------------------------------------------------------ *)
(** ** Witnesses of the properties above *)

Module ExtraWitnesses.
Import Scenarios.

(** An obfuscated number under the key ["K"]. *)
Lemma obfuscator_decode_encode_witness :
  decode "K" (fst (encode "K" 0 (JNumber (NInt (-42))))) = Ok (JNumber (NInt (-42))).
Proof. apply (CacheProps.obfuscator_decode_encode "K" 0 (JNumber (NInt (-42)))). reflexivity. Defined.

(** [write("k", "x", "never", true)] on a new cache, then [read("k")]. *)
Lemma write_then_read_roundtrip_witness :
  read_body (fst (write_job (fst (prepare_write (cs (new_cache seed0)) "k" (hash_loop seed0 "k") (JString "x") Never true (type_of (JString "x"))))
                            (snd (prepare_write (cs (new_cache seed0)) "k" (hash_loop seed0 "k") (JString "x") Never true (type_of (JString "x")))))) "k"
    = Ok (JString "x").
Proof.
  apply (CacheProps.write_then_read_roundtrip (cs (new_cache seed0)) "k" (hash_loop seed0 "k") (JString "x") Never true).
  - vm_compute. reflexivity.
  - intros _. reflexivity.
  - vm_compute. reflexivity.
Defined.

(** The cache holding the obfuscated ["hello"], rotated to the key ["K2"]. *)
Lemma rotation_keeps_obfuscated_reads_witness :
  read_body (handleKeyRotated (with_key (handleBeforeKeyRotated (cs hello_written)) "K2" 7)) "k" = read_body (cs hello_written) "k" /\
  isPaused (handleKeyRotated (with_key (handleBeforeKeyRotated (cs hello_written)) "K2" 7)) = false.
Proof.
  apply (CacheProps.rotation_keeps_obfuscated_reads (cs hello_written) "K2" 7 "k").
  - apply (bool_decide_unpack _). vm_compute. reflexivity.
  - vm_compute. constructor; [|constructor].
    eexists. split; [reflexivity|]. split; [reflexivity|]. eexists. split; reflexivity.
Defined.

(** The cache holding the plain ["A"] under ["a b"], rotated to ["K2"]. *)
Lemma rotation_encodes_plain_entries_witness :
  read_body (cs after_keyA) keyA = Ok (value entry_keyA) /\
  exists r0, read_body (handleKeyRotated (with_key (handleBeforeKeyRotated (cs after_keyA)) "K2" 7)) keyA
             = Ok (fst (encode "K2" r0 (value entry_keyA))).
Proof.
  apply (CacheProps.rotation_encodes_plain_entries (cs after_keyA) "K2" 7 keyA hashAB entry_keyA InvalidFormat).
  - apply (bool_decide_unpack _). vm_compute. reflexivity.
  - vm_compute. constructor; [eexists; reflexivity|constructor].
  - vm_compute. reflexivity.
  - vm_compute. reflexivity.
  - reflexivity.
  - vm_compute. reflexivity.
Defined.

(** ["a b"] and ["ab"] on the cache holding A. *)
Lemma keys_equal_up_to_spaces_witness :
  has (cs after_keyA) keyA = has (cs after_keyA) keyB /\
  read_body (cs after_keyA) keyA = read_body (cs after_keyA) keyB /\
  delete (cs after_keyA) keyA = delete (cs after_keyA) keyB.
Proof. apply (CacheOpsProps.keys_equal_up_to_spaces (cs after_keyA) keyA keyB). vm_compute. reflexivity. Defined.

(** A cache created without a hash seed. *)
Lemma unset_hash_seed_rejects_all_witness :
  has (cs (new_cache 0)) "k" = Error HashKeyNotSet /\ delete (cs (new_cache 0)) "k" = Error HashKeyNotSet /\
  read_body (cs (new_cache 0)) "k" = Error HashKeyNotSet /\
  call_write (new_cache 0) 1 "k" (JFunction 0) Never false = settle (new_cache 0) 1 (Error HashKeyNotSet).
Proof. apply (CacheOpsProps.unset_hash_seed_rejects_all (new_cache 0) 1 "k" (JFunction 0) Never false). reflexivity. Defined.

(** [delete("a b")] on the cache holding A. *)
Lemma delete_removes_only_its_key_witness :
  exists c', delete (cs after_keyA) keyA = Ok (map_has (data (cs after_keyA)) hashAB, c') /\
    has (cs after_keyA) keyA = Ok (map_has (data (cs after_keyA)) hashAB) /\
    has c' keyA = Ok false /\ read_body c' keyA = Ok JNull /\
    forall key2 hk2, createHashKey (seed (cs after_keyA)) key2 = Ok hk2 -> hk2 <> hashAB ->
      has c' key2 = has (cs after_keyA) key2 /\ read_body c' key2 = read_body (cs after_keyA) key2.
Proof. apply (CacheOpsProps.delete_removes_only_its_key (cs after_keyA) keyA hashAB). vm_compute. reflexivity. Defined.

(** [destroy()] on the cache holding A. *)
Lemma destroy_empties_witness :
  has (destroy (cs after_keyA)) keyA = Ok false /\ read_body (destroy (cs after_keyA)) keyA = Ok JNull /\
  isPaused (destroy (cs after_keyA)) = false.
Proof. apply (CacheOpsProps.destroy_empties (cs after_keyA) keyA). vm_compute. discriminate. Defined.

(** Two writes of ["k"] on a new cache, the second one expiring after
    2e12 ms. *)
Lemma same_key_write_overwrites_witness :
  entry_at (fst (write_job (mkWJob "k" (hash_loop seed0 "k") (JNumber (NInt 2)) (After 2000000000000) false "number")
                  (fst (write_job (mkWJob "k" (hash_loop seed0 "k") (JString "one") (After 1000) false "string") (cs (new_cache seed0)))))) (hash_loop seed0 "k")
    = Some (mkEntry (JNumber (NInt 2)) (After 2000000000000) false "number" (createCheckSum "k")) /\
  map fst (data (fst (write_job (mkWJob "k" (hash_loop seed0 "k") (JNumber (NInt 2)) (After 2000000000000) false "number")
                  (fst (write_job (mkWJob "k" (hash_loop seed0 "k") (JString "one") (After 1000) false "string") (cs (new_cache seed0)))))))
    = map fst (data (fst (write_job (mkWJob "k" (hash_loop seed0 "k") (JString "one") (After 1000) false "string") (cs (new_cache seed0))))) /\
  logs (fst (write_job (mkWJob "k" (hash_loop seed0 "k") (JNumber (NInt 2)) (After 2000000000000) false "number")
                  (fst (write_job (mkWJob "k" (hash_loop seed0 "k") (JString "one") (After 1000) false "string") (cs (new_cache seed0)))))) = logs (cs (new_cache seed0)) /\
  snd (write_job (mkWJob "k" (hash_loop seed0 "k") (JNumber (NInt 2)) (After 2000000000000) false "number")
                  (fst (write_job (mkWJob "k" (hash_loop seed0 "k") (JString "one") (After 1000) false "string") (cs (new_cache seed0))))) = ttl_too_long (After 2000000000000).
Proof.
  apply (CacheOpsProps.same_key_write_overwrites (cs (new_cache seed0)) "k" (hash_loop seed0 "k")
           (JString "one") (JNumber (NInt 2)) (After 1000) (After 2000000000000) false false "string" "number").
  vm_compute. reflexivity.
Defined.

(** A write of ["k"] expiring after one second, then one that never expires. *)
Lemma expiry_timer_outlives_rewrite_witness :
  In (hash_loop seed0 "k") (timers (fst (write_job (mkWJob "k" (hash_loop seed0 "k") (JString "two") Never false "string")
                  (fst (write_job (mkWJob "k" (hash_loop seed0 "k") (JString "one") (After 1000) false "string") (cs (new_cache seed0))))))) /\
  entry_at (fst (write_job (mkWJob "k" (hash_loop seed0 "k") (JString "two") Never false "string")
                  (fst (write_job (mkWJob "k" (hash_loop seed0 "k") (JString "one") (After 1000) false "string") (cs (new_cache seed0)))))) (hash_loop seed0 "k")
    = Some (mkEntry (JString "two") Never false "string" (createCheckSum "k")) /\
  entry_at (expire (fst (write_job (mkWJob "k" (hash_loop seed0 "k") (JString "two") Never false "string")
                  (fst (write_job (mkWJob "k" (hash_loop seed0 "k") (JString "one") (After 1000) false "string") (cs (new_cache seed0))))))
                  (hash_loop seed0 "k")) (hash_loop seed0 "k") = None.
Proof.
  apply (CacheOpsProps.expiry_timer_outlives_rewrite (cs (new_cache seed0)) "k" (hash_loop seed0 "k")
           (JString "one") (JString "two") 1000 false false "string" "string").
  - vm_compute. reflexivity.
  - unfold maxTotalDelay. lia.
Defined.

(** A delay of 3e9 ms (two links) on an idle timer queue, observed at 4e9 ms. *)
Lemma unbounded_timeout_fires_once_witness :
  exists s' h, Rotation.setUnboundedTimeout (Rotation.mk 0 [] 0 [] None 0) 3000000000 = Ok (s', h) /\
    Rotation.rotations (Rotation.advance 2 4000000000 s') =
      (Rotation.rotations (Rotation.mk 0 [] 0 [] None 0) ++
        (if (Rotation.now (Rotation.mk 0 [] 0 [] None 0) + 3000000000 <=? 4000000000)%Z
         then [(Rotation.now (Rotation.mk 0 [] 0 [] None 0) + 3000000000)%Z] else []))%list.
Proof.
  apply (TimerProps.unbounded_timeout_fires_once (Rotation.mk 0 [] 0 [] None 0) 3000000000 4000000000 2).
  - reflexivity.
  - unfold Rotation.maxTotalDelay. lia.
  - unfold Rotation.maxDelay. lia.
Defined.

(** A new [Obfuscator] observed after 100 days. *)
Lemma obfuscator_rotates_once_witness :
  Rotation.rotations (Rotation.advance 4 (100 * Rotation.day) Rotation.create) =
    (if (90 * Rotation.day <=? 100 * Rotation.day)%Z then [(90 * Rotation.day)%Z] else []).
Proof. apply (TimerProps.obfuscator_rotates_once (100 * Rotation.day) 4). lia. Defined.


(** The loop suspended on D, with A and C queued. *)
Lemma drain_runs_all_in_order_witness :
  exists p', ProcessQueue.drain job_runner 8 (ProcessQueue.AfterItem jobD) running_ac [Ran 4] =
               (p', ([Ran 4] ++ DrainFacts.ran [jobA; jobC])%list) /\
    ProcessQueue.isExecuting p' = false /\ Queue.contents (ProcessQueue.queue p') = [].
Proof.
  apply (DrainProps.drain_runs_all_in_order running_ac [Ran 4] jobD [jobA; jobC] 8).
  - vm_compute. repeat split; try lia; repeat constructor; eexists; reflexivity.
  - vm_compute. reflexivity.
  - reflexivity.
  - repeat constructor.
  - simpl. lia.
Defined.

(** ["key_rotated"] with a throwing before-handler, a non-function
    handler, a throwing callback and one listener. *)
Lemma emitter_contains_handler_errors_witness :
  snd (Emitter.emitter [("key_rotated", [Emitter.HFn (fun s => (s + 1, true)); Emitter.HOther])] []
         [fun s => (s * 2, false)] "key_rotated" (Some (fun s => (s, true))) 1) = None.
Proof.
  apply (EmitterProps.emitter_contains_handler_errors
           [("key_rotated", [Emitter.HFn (fun s => (s + 1, true)); Emitter.HOther])] []
           [fun s => (s * 2, false)] "key_rotated" (Some (fun s => (s, true))) 1).
  - reflexivity.
  - constructor; [intros s; reflexivity|constructor].
  - left. discriminate.
Defined.

(** ["report.v1.pdf"] *)
Lemma mime_of_last_extension_witness :
  Mime.getMIMEType ("report.v1" ++ "." ++ "pdf") =
    Mime.MimeString (match Mime.lookup_str Mime.mimeTypes ("." ++ "pdf") with
                     | Some m => m
                     | None => "application/octet-stream"
                     end).
Proof. apply (MimeProps.mime_of_last_extension "report.v1" "pdf"). reflexivity. Defined.

(** ["constructor"] *)
Lemma mime_without_dot_witness :
  Mime.getMIMEType "constructor" =
    if inherited "constructor" then Mime.InheritedValue "constructor"
    else Mime.MimeString "application/octet-stream".
Proof. apply (MimeProps.mime_without_dot "constructor"). reflexivity. Defined.

(** [[1, 2, 1, 3]] *)
Lemma remove_duplicates_spec_witness :
  List.NoDup (ListUtils.removeDuplicatesFromList Nat.eqb [1; 2; 1; 3]) /\
  (forall x, In x (ListUtils.removeDuplicatesFromList Nat.eqb [1; 2; 1; 3]) <-> In x [1; 2; 1; 3]) /\
  (List.NoDup [1; 2; 1; 3] -> ListUtils.removeDuplicatesFromList Nat.eqb [1; 2; 1; 3] = [1; 2; 1; 3]).
Proof.
  apply (ListProps.remove_duplicates_spec Nat.eqb). intros x y. apply Nat.eqb_eq.
Defined.

(** One business day back from 1 January 1970 (a Thursday). *)
Lemma due_date_negative_never_returns_witness :
  Dates.calcBusinessDaydueDate 100 (Some 0%Z) (-1) = None.
Proof. apply (DatesProps.due_date_negative_never_returns 100 (Some 0%Z) (-1)). lia. Defined.

(** Three business days from 1 January 1970. *)
Lemma due_date_then_days_between_witness :
  exists due, Dates.calcBusinessDaydueDate 20 (Some 0%Z) 3 = Some (Some due) /\
    (due mod Dates.day = 0)%Z /\ Dates.is_business (Some due) = true /\ (0 < due)%Z /\
    Dates.calcBusinessDaysInBetween 20 (Some 0%Z) (Some due) =
      Some (Ok (3 - 1 + if Dates.is_business (Some (0 - 0 mod Dates.day)%Z) then 1 else 0)%Z, Some due).
Proof.
  apply (DatesProps.due_date_then_days_between 0 3 20).
  - unfold Dates.maxTime. lia.
  - unfold Dates.day, Dates.maxTime. lia.
  - lia.
  - simpl. lia.
Defined.

(** Two weeks from noon of 1 January 1970. *)
Lemma business_days_whole_weeks_witness :
  Dates.calcBusinessDaysInBetween 20 (Some 43200000%Z) (Some (43200000 + Z.of_nat (7 * 2) * Dates.day)%Z) =
    Some (Ok (5 * Z.of_nat 2)%Z, Some (43200000 - 43200000 mod Dates.day + Z.of_nat (7 * 2) * Dates.day)%Z).
Proof.
  apply (DatesProps.business_days_whole_weeks 43200000 2 20).
  - unfold Dates.maxTime. lia.
  - unfold Dates.day, Dates.maxTime. simpl. lia.
  - lia.
Defined.

End ExtraWitnesses.
